(** * Floor-price estimation pipeline of [run_cbnftfloorprice.py]

    A shallow embedding of the batch script: the trade table is a list of
    rows, every pandas step of [main] is a function on that list, and the
    helpers of the [cbnftfloorprice] package that the script calls are
    modelled next to it.  Prices and log-prices are rationals; the
    logarithm and the exponential are parameters of the pipeline. *)

From Stdlib Require Import String Ascii OrderedTypeEx.
From Stdlib Require Import List ZArith QArith Qround Bool.
From Stdlib Require Import Lia Lqa Permutation Sorted.
Import ListNotations.

Local Open Scope Z_scope.

(** ** Sort keys *)

(** Column values that pandas sorts and groups on: a three-way comparison
    that decides Leibniz equality. *)
Class Order (K : Type) := {
  cmp : K -> K -> comparison;
  cmp_eq : forall a b, cmp a b = Eq <-> a = b;
  cmp_antisym : forall a b, cmp a b = CompOpp (cmp b a);
  cmp_lt_trans : forall a b c, cmp a b = Lt -> cmp b c = Lt -> cmp a c = Lt
}.

#[export] Instance Order_Z : Order Z.
Proof.
  refine {| cmp := Z.compare |}.
  - apply Z.compare_eq_iff.
  - intros a b. apply Z.compare_antisym.
  - intros a b c. rewrite !Z.compare_lt_iff. lia.
Defined.

#[export] Instance Order_string : Order string.
Proof.
  refine {| cmp := String.compare |}.
  - apply String_as_OT.cmp_eq.
  - apply String_as_OT.cmp_antisym.
  - intros a b c H1 H2.
    apply String_as_OT.cmp_lt. apply String_as_OT.cmp_lt in H1, H2.
    eapply String_as_OT.lt_trans; eassumption.
Defined.

(** Several sort columns compare lexicographically, first column first. *)
Definition lex_cmp {K1 K2} `{Order K1} `{Order K2}
  (a b : K1 * K2) : comparison :=
  match cmp (fst a) (fst b) with
  | Eq => cmp (snd a) (snd b)
  | c => c
  end.

#[export] Instance Order_prod {K1 K2} `{Order K1} `{Order K2} : Order (K1 * K2).
Proof.
  refine {| cmp := lex_cmp |}.
  - intros [a1 a2] [b1 b2]. unfold lex_cmp; simpl.
    destruct (cmp a1 b1) eqn:E.
    + apply cmp_eq in E. subst. rewrite cmp_eq. split; congruence.
    + split; [discriminate|]. intros Heq. inversion Heq; subst.
      assert (cmp b1 b1 = Eq) by (apply cmp_eq; reflexivity). congruence.
    + split; [discriminate|]. intros Heq. inversion Heq; subst.
      assert (cmp b1 b1 = Eq) by (apply cmp_eq; reflexivity). congruence.
  - intros [a1 a2] [b1 b2]. unfold lex_cmp; simpl.
    rewrite (cmp_antisym a1 b1). destruct (cmp b1 a1); simpl; auto.
    apply cmp_antisym.
  - intros [a1 a2] [b1 b2] [c1 c2]. unfold lex_cmp; simpl.
    destruct (cmp a1 b1) eqn:E1; try discriminate;
    destruct (cmp b1 c1) eqn:E2; try discriminate; intros H1 H2.
    + apply cmp_eq in E1, E2. subst.
      assert (E : cmp c1 c1 = Eq) by (apply cmp_eq; reflexivity).
      rewrite E. eapply cmp_lt_trans; eassumption.
    + apply cmp_eq in E1. subst. rewrite E2. reflexivity.
    + apply cmp_eq in E2. subst. rewrite E1. reflexivity.
    + rewrite (cmp_lt_trans _ _ _ E1 E2). reflexivity.
Defined.

Definition keq {K} `{Order K} (a b : K) : bool :=
  match cmp a b with Eq => true | _ => false end.

Definition kle {K} `{Order K} (a b : K) : Prop := cmp a b <> Gt.

Definition kleb {K} `{Order K} (a b : K) : bool :=
  match cmp a b with Gt => false | _ => true end.

(** ** Table operations of pandas *)

(** A stable sort by a boolean order: [x] goes in front of the first
    element that is not below it, so elements that compare equal keep the
    order they had. *)
Fixpoint insert_by {A} (leb : A -> A -> bool) (x : A) (l : list A) : list A :=
  match l with
  | [] => [x]
  | y :: l' => if leb x y then x :: l else y :: insert_by leb x l'
  end.

Fixpoint sort_by {A} (leb : A -> A -> bool) (l : list A) : list A :=
  match l with
  | [] => []
  | x :: l' => insert_by leb x (sort_by leb l')
  end.

Definition sorted_by {A} (leb : A -> A -> bool) (l : list A) : Prop :=
  StronglySorted (fun a b => leb a b = true) l.

(** [subseq l1 l2]: [l1] is [l2] with some rows left out, the others in
    the same order. *)
Inductive subseq {A} : list A -> list A -> Prop :=
| subseq_nil : subseq [] []
| subseq_skip x l1 l2 : subseq l1 l2 -> subseq l1 (x :: l2)
| subseq_keep x l1 l2 : subseq l1 l2 -> subseq (x :: l1) (x :: l2).

Definition key_leb {A K} `{Order K} (key : A -> K) (a b : A) : bool :=
  kleb (key a) (key b).

(** [df.sort_values(columns)]: rows in ascending order of the listed
    columns, compared lexicographically; rows equal on them keep their
    order. *)
Definition sort_values {A K} `{Order K} (key : A -> K) (tbl : list A)
  : list A :=
  sort_by (fun a b => kleb (key a) (key b)) tbl.

(** [df.groupby(columns).tail(1)]: the last row of every group, the rows
    staying in table order. *)
Fixpoint groupby_tail1 {A K} `{Order K} (key : A -> K) (tbl : list A)
  : list A :=
  match tbl with
  | [] => []
  | r :: rest =>
      if existsb (fun r' => keq (key r') (key r)) rest
      then groupby_tail1 key rest
      else r :: groupby_tail1 key rest
  end.

Fixpoint uniq {K} `{Order K} (l : list K) : list K :=
  match l with
  | [] => []
  | k :: l' => if existsb (keq k) l' then uniq l' else k :: uniq l'
  end.

(** [df.groupby(columns)]: the groups in ascending key order, each with
    its rows in table order. *)
Definition group_keys {A K} `{Order K} (key : A -> K) (tbl : list A) : list K :=
  sort_values (fun k => k) (uniq (map key tbl)).

Definition group_rows {A K} `{Order K} (key : A -> K) (k : K) (tbl : list A)
  : list A :=
  filter (fun r => keq (key r) k) tbl.

Definition groupby {A K} `{Order K} (key : A -> K) (tbl : list A)
  : list (K * list A) :=
  map (fun k => (k, group_rows key k tbl)) (group_keys key tbl).

(** [df.groupby(columns).apply(f).reset_index(drop=True)]: the tables that
    [f] returns, one after the other in group order. *)
Definition groupby_apply {A B K} `{Order K} (key : A -> K)
  (f : list A -> list B) (tbl : list A) : list B :=
  concat (map (fun g => f (snd g)) (groupby key tbl)).

Definition count {A} (P : A -> bool) (l : list A) : Z :=
  Z.of_nat (length (filter P l)).

(** [df.groupby(columns)[val].rank(method="first", ascending=False)]:
    within its group a row ranks 1 + the number of rows with a larger
    value + the number of earlier rows with the same value. *)
Fixpoint rank_first_desc_from {A K} `{Order K} (key : A -> K) (val : A -> Z)
  (all seen rest : list A) : list (A * Z) :=
  match rest with
  | [] => []
  | r :: rest' =>
      let larger x := keq (key x) (key r) && (val r <? val x) in
      let tied x := keq (key x) (key r) && (val x =? val r) in
      (r, 1 + count larger all + count tied seen)
        :: rank_first_desc_from key val all (r :: seen) rest'
  end.

Definition groupby_rank_first_desc {A K} `{Order K} (key : A -> K)
  (val : A -> Z) (tbl : list A) : list (A * Z) :=
  rank_first_desc_from key val tbl [] tbl.

(** The two counts of a rank, and the rank within a single group, where
    the group key plays no part. *)
Definition larger {A} (val : A -> Z) (v : Z) (x : A) : bool := v <? val x.
Definition tied {A} (val : A -> Z) (v : Z) (x : A) : bool := val x =? v.

Definition rank_in_group {A} (val : A -> Z) (all seen rest : list A)
  : list (A * Z) :=
  rank_first_desc_from (fun _ : A => 0) val all seen rest.

Definition ranks {A} (val : A -> Z) (g : list A) : list (A * Z) :=
  rank_in_group val g [] g.

(** [x.iloc[-n:]], with Python's reading of the slice when [n] is not
    positive. *)
Definition iloc_last {A} (n : Z) (l : list A) : list A :=
  if n <=? 0 then skipn (Z.to_nat (- n)) l
  else skipn (length l - Z.to_nat n) l.

(** ** Exceptions *)

(** [InsufficientDataError] is the exception of [compute_quantile];
    [ValueError] is what pandas raises when the result of a row-wise
    [apply] on an empty frame is assigned to a column. *)
Inductive error : Type := InsufficientDataError | ValueError.

Inductive result (A : Type) : Type :=
| Ok (a : A)
| Raise (e : error).
Arguments Ok {A} a.
Arguments Raise {A} e.

Definition bind {A B} (r : result A) (f : A -> result B) : result B :=
  match r with
  | Ok a => f a
  | Raise e => Raise e
  end.

Notation "x <- c ;; k" := (bind c (fun x => k))
  (at level 61, c at next level, right associativity).

(** [df.apply(f, axis=1)]: [f] on every row from the top; the first
    exception ends the pass. *)
Fixpoint apply_rows {A B} (f : A -> result B) (tbl : list A)
  : result (list B) :=
  match tbl with
  | [] => Ok []
  | r :: rest => y <- f r ;; ys <- apply_rows f rest ;; Ok (y :: ys)
  end.

(** [df[column] = df.apply(f, axis=1)]: the new column of the rows.  On a
    frame without rows [apply] gives back a frame, not a column, and the
    assignment raises [ValueError]. *)
Definition assign_apply {A B} (f : A -> result B) (tbl : list A)
  : result (list B) :=
  match tbl with
  | [] => Raise ValueError
  | _ :: _ => apply_rows f tbl
  end.

(** ** Configuration *)

Definition LOOKBACK : Z := 140.
Definition BACKTEST : Z := 800.
Definition PCT_TARGET : Q := 5 # 100.
Definition PCT_TARGET_MIN : Q := 2 # 100.
Definition PCT_TARGET_MAX : Q := 1 # 10.
Definition SPEED : Q := 1 # 2.
Definition TWAP_Buffer_PCT : Q := 95 # 100.

(** ** Trade records *)

(** A line of [nft_trades.csv].  The [twap-bid] cell may be empty, which
    pandas reads as NaN.  The chain, the token and the block are integers,
    compared as integers: that is how lines 30 to 39 compare them on a
    table with [integer_columns] below. *)
Record Trade : Type := mkTrade {
  chain_id : Z;
  contract_address : string;
  token_id : Z;
  block_number : Z;
  price_eth : Q;
  twap_bid : option Q
}.

(** Line 19: [read_csv] makes a column of 64-bit integers of a column
    whose values all fit.  A column with a larger value, such as a token
    id of 2^64 or more, it reads as text, and the sorts then compare the
    cells of that column as text, for every row of the table. *)
Definition int64 (z : Z) : bool := (- 2 ^ 63 <=? z) && (z <? 2 ^ 63).

Definition integer_columns (raw : list Trade) : bool :=
  forallb
    (fun t =>
       int64 (chain_id t) && int64 (token_id t) && int64 (block_number t))
    raw.

Definition CollectionKey : Type := (Z * string)%type.
Definition TokenKey : Type := (Z * (string * Z))%type.

Definition collection_of (t : Trade) : CollectionKey :=
  (chain_id t, contract_address t).

Definition token_of (t : Trade) : TokenKey :=
  (chain_id t, (contract_address t, token_id t)).

(** What [np.log] yields on a finite argument. *)
Inductive log_value : Type :=
| Finite (q : Q)
| NegInfinity
| NotANumber.

Definition Qlt_bool (x y : Q) : bool := negb (Qle_bool y x).

(** ** Helpers of the [cbnftfloorprice] package *)

(** Modelled from the spec: [cbnftfloorprice.compute_new_quantile], the
    QuantileController of section 4.6.  The script imports the package;
    the package's own source is missing. *)
Definition clamp (x lo hi : Q) : Q :=
  if Qlt_bool x lo then lo else if Qlt_bool hi x then hi else x.

Definition compute_new_quantile
  (nominal_target desired_target observed_hit_rate : Q)
  (speed min_bound max_bound : Q) : Q :=
  clamp (nominal_target + speed * (desired_target - observed_hit_rate))
        min_bound max_bound.

(** Modelled from the spec: [cbnftfloorprice.compute_quantile], the
    QuantileEstimator of section 4.5, whose source is missing like the
    rest of the package.  The order statistic at fractional rank [p*(n-1)] of the
    sorted sequence, interpolated linearly between its neighbours, the
    indices clamped at the boundaries; an empty sequence is an error. *)
Definition nth_clamped (s : list Q) (i : Z) : Q :=
  nth (Z.to_nat (Z.min (Z.max i 0) (Z.of_nat (length s) - 1))) s 0%Q.

Definition interpolate (s : list Q) (p : Q) : Q :=
  let r := (p * inject_Z (Z.of_nat (length s) - 1))%Q in
  let i := Qfloor r in
  let f := (r - inject_Z i)%Q in
  (nth_clamped s i + f * (nth_clamped s (i + 1) - nth_clamped s i))%Q.

Definition compute_quantile (x : list Q) (p : Q) : result Q :=
  match x with
  | [] => Raise InsufficientDataError
  | _ :: _ => Ok (interpolate (sort_by Qle_bool x) p)
  end.

(** ** The table at the stages of [main] *)

(** After the [log_price] column is added. *)
Record Row : Type := mkRow {
  trade :> Trade;
  log_price : Q
}.

(** After [create_lookback]: the [log_prices_lookback] column. *)
Record LRow : Type := mkLRow {
  row :> Row;
  log_prices_lookback : list Q
}.

(** After outlier removal: the [log_prices_lookback_no_outliers] column. *)
Record ORow : Type := mkORow {
  lrow :> LRow;
  log_prices_lookback_no_outliers : list Q
}.

(** After the nominal estimate: the [log_price_target_quantile] column. *)
Record QRow : Type := mkQRow {
  orow :> ORow;
  log_price_target_quantile : Q
}.

(** A row of [nft_trades_grouped_df], indexed by collection. *)
Record Stats : Type := mkStats {
  stats_key : CollectionKey;
  price_smaller_sum : Z;
  one_sum : Z;
  quantile_obs : Q;
  quantile_adj : Q
}.

(** After the merge with the grouped table and the adjusted estimate. *)
Record ARow : Type := mkARow {
  qrow :> QRow;
  stats : Stats;
  log_price_adj : Q
}.

(** A record of [result_df]. *)
Record Estimate : Type := mkEstimate {
  arow :> ARow;
  floor_price_est : Q
}.

(** Modelled from the spec: [cbnftfloorprice.create_lookback], the
    LookbackBuilder of sections 3 and 4.2, whose source is missing like
    the rest of the package.  The rows arrive in ascending block order; each gets
    the log-prices of the [lookback] most recent rows ending at and
    including itself, oldest first. *)
Fixpoint rolling_from (lookback : Z) (seen : list Row) (rows : list Row)
  : list LRow :=
  match rows with
  | [] => []
  | r :: rest =>
      let recent := firstn (Z.to_nat lookback) (r :: seen) in
      mkLRow r (map log_price (rev recent))
        :: rolling_from lookback (r :: seen) rest
  end.

Definition create_lookback (lookback : Z) (rows : list Row) : list LRow :=
  rolling_from lookback [] rows.

(** The grouping and ranking columns of a row. *)
Definition token_row (r : Row) : TokenKey := token_of r.
Definition collection_row (r : Row) : CollectionKey := collection_of r.
Definition block_row (r : Row) : Z := block_number r.

Definition collection_lrow (r : LRow) : CollectionKey := collection_of r.
Definition collection_qrow (r : QRow) : CollectionKey := collection_of r.
Definition collection_arow (r : ARow) : CollectionKey := collection_of r.
Definition collection_estimate (r : Estimate) : CollectionKey :=
  collection_of r.

(** The rows that lines 67-72 and 109-115 add when the estimator does not
    fail. *)
Definition nominal_row (o : ORow) : QRow :=
  mkQRow o
    (interpolate (sort_by Qle_bool (log_prices_lookback_no_outliers o))
       PCT_TARGET).

Definition adjusted_row (m : QRow * Stats) : ARow :=
  mkARow (fst m) (snd m)
    (interpolate
       (sort_by Qle_bool (log_prices_lookback_no_outliers (fst m)))
       (quantile_adj (snd m))).

(** The bound on the ranks of line 40. *)
Definition cap_bound : Z := BACKTEST * 2 + LOOKBACK * 2.

Section Pipeline.

(** The logarithm and the exponential of the reals, on rationals. *)
Variables ln exp : Q -> Q.

(** [cbnftfloorprice.remove_outliers], the OutlierFilter of section 4.4.
    Its source is missing and the spec leaves the trimming rule open, so
    the pipeline takes the filter as a parameter; what the spec requires
    of it is assumed where a result needs it. *)
Variable remove_outliers : list Q -> list Q.

(** [np.log] on one cell. *)
Definition np_log (x : Q) : log_value :=
  if Qlt_bool 0 x then Finite (ln x)
  else if Qeq_bool x 0 then NegInfinity
  else NotANumber.

(** Line 22: [df[df["price_eth"] > 0]]. *)
Definition positive_prices (raw : list Trade) : list Trade :=
  filter (fun t => Qlt_bool 0 (price_eth t)) raw.

(** Line 23: the [log_price] column. *)
Definition with_log_price (tbl : list Trade) : list Row :=
  map (fun t => mkRow t (ln (price_eth t))) tbl.

(** Line 27: [price_eth >= twap-bid * TWAP_Buffer_PCT]; a comparison with
    NaN is false. *)
Definition twap_ok (t : Trade) : bool :=
  match twap_bid t with
  | Some bid => Qle_bool (bid * TWAP_Buffer_PCT) (price_eth t)
  | None => false
  end.

Definition twap_filter (tbl : list Row) : list Row :=
  filter (fun r : Row => twap_ok r) tbl.

Definition sanitize (raw : list Trade) : list Row :=
  twap_filter (with_log_price (positive_prices raw)).

(** Lines 30-31: sort on chain, contract, token and block, then keep the
    last row of every token. *)
Definition keep_latest_per_token (tbl : list Row) : list Row :=
  groupby_tail1 token_row
    (sort_values
       (fun r : Row =>
          (chain_id r, (contract_address r, (token_id r, block_number r))))
       tbl).

(** Lines 34-36: sort on chain, contract and block. *)
Definition sort_by_block (tbl : list Row) : list Row :=
  sort_values
    (fun r : Row => (chain_id r, (contract_address r, block_number r))) tbl.

(** Lines 37-42: rank the rows of every collection by block, most recent
    first, and keep the ranks below [BACKTEST * 2 + LOOKBACK * 2]. *)
Definition rank_cap (tbl : list Row) : list Row :=
  map fst
    (filter (fun rr => snd rr <? cap_bound)
       (groupby_rank_first_desc collection_row block_row tbl)).

Definition deduplicated (raw : list Trade) : list Row :=
  sort_by_block (keep_latest_per_token (sanitize raw)).

Definition trade_filter (raw : list Trade) : list Row :=
  rank_cap (deduplicated raw).

(** Lines 45-49. *)
Definition lookback_table (tbl : list Row) : list LRow :=
  groupby_apply collection_row (create_lookback LOOKBACK) tbl.

(** Lines 52-58. *)
Definition backtest_table (tbl : list LRow) : list LRow :=
  groupby_apply collection_lrow (iloc_last BACKTEST) tbl.

(** Lines 61-64: the outlier-filtered window of every row.  This is the
    first row-wise assignment of [main]: when the filters have left no
    row, it is here that the run ends with [ValueError]. *)
Definition outliers_removed (w : LRow) : ORow :=
  mkORow w (remove_outliers (log_prices_lookback w)).

Definition no_outliers_table (tbl : list LRow) : result (list ORow) :=
  assign_apply (fun w : LRow => Ok (outliers_removed w)) tbl.

(** Lines 67-72: the nominal estimate of every row. *)
Definition target_quantile_table (tbl : list ORow) : result (list QRow) :=
  assign_apply
    (fun r : ORow =>
       q <- compute_quantile (log_prices_lookback_no_outliers r) PCT_TARGET ;;
       Ok (mkQRow r q))
    tbl.

(** Lines 75-78: the [price_smaller] column. *)
Definition price_smaller (r : QRow) : bool :=
  Qle_bool (log_price r) (log_price_target_quantile r).

(** Lines 79-100: per collection the sums of [price_smaller] and [one],
    their quotient and the adjusted quantile. *)
Definition stats_of (g : CollectionKey * list QRow) : Stats :=
  let hits := count price_smaller (snd g) in
  let ones := count (fun _ => true) (snd g) in
  let obs := (inject_Z hits / inject_Z ones)%Q in
  mkStats (fst g) hits ones obs
    (compute_new_quantile PCT_TARGET PCT_TARGET obs SPEED
       PCT_TARGET_MIN PCT_TARGET_MAX).

Definition grouped_stats (tbl : list QRow) : list Stats :=
  map stats_of (groupby collection_qrow tbl).

(** Lines 103-108: the merge on the collection key.  Every key of the left
    table is in the index of the grouped one, so the left join leaves no
    row without a match. *)
Definition merge_left (tbl : list QRow) (grouped : list Stats)
  : list (QRow * Stats) :=
  flat_map
    (fun r : QRow =>
       map (fun s => (r, s))
         (filter (fun s => keq (stats_key s) (collection_qrow r)) grouped))
    tbl.

(** A row with the row of its collection in the grouped table. *)
Definition paired (tbl : list QRow) (r : QRow) : QRow * Stats :=
  (r, stats_of (collection_qrow r,
                group_rows collection_qrow (collection_qrow r) tbl)).

(** Lines 109-115: the adjusted estimate of every row. *)
Definition adjusted_table (tbl : list (QRow * Stats)) : result (list ARow) :=
  assign_apply
    (fun m : QRow * Stats =>
       q <- compute_quantile (log_prices_lookback_no_outliers (fst m))
              (quantile_adj (snd m)) ;;
       Ok (mkARow (fst m) (snd m) q))
    tbl.

(** Lines 118-119: the last row of every collection, with its price. *)
Definition results (tbl : list ARow) : list Estimate :=
  map (fun a => mkEstimate a (exp (log_price_adj a)))
    (groupby_tail1 collection_arow tbl).

(** [main], from the table that line 19 reads to the records of
    line 121. *)
Definition main (raw : list Trade) : result (list Estimate) :=
  let nft_trades_df := trade_filter raw in
  let nft_trades_df := lookback_table nft_trades_df in
  let nft_trades_df := backtest_table nft_trades_df in
  nft_trades_df <- no_outliers_table nft_trades_df ;;
  nft_trades_df <- target_quantile_table nft_trades_df ;;
  let nft_trades_grouped_df := grouped_stats nft_trades_df in
  nft_trades_df <-
    adjusted_table (merge_left nft_trades_df nft_trades_grouped_df) ;;
  Ok (results nft_trades_df).

(** The rows of one collection in the working set, and its backtest
    horizon: the last [BACKTEST] of its rows with their windows. *)
Definition working_set (raw : list Trade) (c : CollectionKey) : list Row :=
  group_rows collection_row c (trade_filter raw).

Definition horizon (raw : list Trade) (c : CollectionKey) : list LRow :=
  iloc_last BACKTEST (create_lookback LOOKBACK (working_set raw c)).

(** The table after line 58, and the row that lines 61-72 make of one of
    its rows when the estimator does not fail. *)
Definition backtest_rows (raw : list Trade) : list LRow :=
  backtest_table (lookback_table (trade_filter raw)).

Definition nominal_of (w : LRow) : QRow := nominal_row (outliers_removed w).

(** The table up to line 72 and the grouped table of line 100. *)
Definition quantile_table (raw : list Trade) : result (list QRow) :=
  o <- no_outliers_table
         (backtest_table (lookback_table (trade_filter raw))) ;;
  target_quantile_table o.

Definition grouped_table (raw : list Trade) : result (list Stats) :=
  t <- quantile_table raw ;; Ok (grouped_stats t).

(** The nominal estimate of a row of the horizon, and whether the row's
    own log-price is at or under it. *)
Definition nominal_estimate (w : LRow) : result Q :=
  compute_quantile (remove_outliers (log_prices_lookback w)) PCT_TARGET.

Definition hit (w : LRow) : bool :=
  match nominal_estimate w with
  | Ok q => Qle_bool (log_price w) q
  | Raise _ => false
  end.

(** The row of the grouped table for a collection, and the record that
    the run emits for the collection from a row [w] of its horizon, when
    no estimate fails. *)
Definition collection_stats (raw : list Trade) (c : CollectionKey) : Stats :=
  stats_of (c, map nominal_of (horizon raw c)).

Definition estimate_of (raw : list Trade) (c : CollectionKey) (w : LRow)
  : Estimate :=
  let a := adjusted_row (nominal_of w, collection_stats raw c) in
  mkEstimate a (exp (log_price_adj a)).

End Pipeline.

(** ** Sample data *)

(** Stand-ins for the logarithm and the exponential on rationals: their
    first-order expansions at 1 and at 0. *)
Definition ln_sample (x : Q) : Q := x - 1.
Definition exp_sample (x : Q) : Q := 1 + x.

(** An outlier filter that trims nothing, and one that drops every value
    that is not above zero. *)
Definition no_trim (w : list Q) : list Q := w.


(** Two collections.  In ["0xA"] token 1 trades twice and one trade is
    priced under the buffer; in ["0xB"] one trade has no [twap-bid] and
    one has price zero. *)
Definition sample_trades : list Trade :=
  [ mkTrade 1 "0xA" 1 10 (3 # 1) (Some 1%Q);
    mkTrade 1 "0xA" 2 10 (2 # 1) (Some 1%Q);
    mkTrade 1 "0xA" 1 12 (5 # 1) (Some 1%Q);
    mkTrade 1 "0xB" 1 5 (7 # 1) None;
    mkTrade 1 "0xB" 2 5 (0 # 1) (Some 0%Q);
    mkTrade 1 "0xB" 3 6 (9 # 1) (Some 1%Q);
    mkTrade 1 "0xA" 3 11 (4 # 1) (Some (100 # 1)) ].

Definition sample_survivor : Row :=
  mkRow (mkTrade 1 "0xA" 1 12 (5 # 1) (Some 1%Q)) (ln_sample (5 # 1)).

Definition sample_window : LRow :=
  mkLRow sample_survivor [ln_sample (2 # 1); ln_sample (5 # 1)].



(** A collection of 1881 tokens, each traded once.  The input starts
    with the tokens 3, 1 and 2, in this order and all in block 3; the
    tokens 4 to 1881 follow, token [i] in block [i]. *)
Definition tied_row (i : nat) : Row :=
  mkRow (mkTrade 1 "0xABC" (Z.of_nat i) (Z.max 3 (Z.of_nat i)) (1 # 1)
           (Some 1%Q))
        (ln_sample (1 # 1)).

Definition tied_collection : list Trade :=
  map (fun i => trade (tied_row i)) (3 :: 1 :: 2 :: seq 4 1878)%nat.

(** Two trades of one token, the later one priced far under its
    [twap-bid]. *)
Definition stale_token : list Trade :=
  [ mkTrade 1 "0xA" 1 10 (3 # 1) (Some 1%Q);
    mkTrade 1 "0xA" 1 12 (1 # 1) (Some 100%Q) ].

(** Two more rows of the sample run, as the trade filter leaves them. *)
Definition sample_older : Row :=
  mkRow (mkTrade 1 "0xA" 2 10 (2 # 1) (Some 1%Q)) (ln_sample (2 # 1)).

Definition sample_other : Row :=
  mkRow (mkTrade 1 "0xB" 3 6 (9 # 1) (Some 1%Q)) (ln_sample (9 # 1)).

(** * Facts *)

(** ** Orders *)

Section OrderFacts.
Context {K : Type} `{Order K}.

Lemma cmp_refl (a : K) : cmp a a = Eq.
Proof. apply cmp_eq. reflexivity. Qed.

Lemma keq_true (a b : K) : keq a b = true <-> a = b.
Proof.
  unfold keq. destruct (cmp a b) eqn:E.
  - apply cmp_eq in E. tauto.
  - split; [discriminate|]. intros ->. rewrite cmp_refl in E. discriminate.
  - split; [discriminate|]. intros ->. rewrite cmp_refl in E. discriminate.
Qed.

Lemma keq_refl (a : K) : keq a a = true.
Proof. apply keq_true. reflexivity. Qed.

Lemma keq_false (a b : K) : keq a b = false <-> a <> b.
Proof.
  split.
  - intros E Hab. apply keq_true in Hab. congruence.
  - intros Hab. destruct (keq a b) eqn:E; auto.
    apply keq_true in E. contradiction.
Qed.

Lemma cmp_gt_lt (a b : K) : cmp a b = Gt <-> cmp b a = Lt.
Proof.
  rewrite (cmp_antisym a b). destruct (cmp b a); simpl; split; congruence.
Qed.

Lemma kle_total (a b : K) : kle a b \/ kle b a.
Proof.
  unfold kle. rewrite (cmp_antisym b a).
  destruct (cmp a b); simpl; [left|left|right]; discriminate.
Qed.

Lemma kle_cases (a b : K) : kle a b <-> cmp a b = Lt \/ a = b.
Proof.
  unfold kle. rewrite <- cmp_eq. destruct (cmp a b); split;
    try tauto; try congruence; intros [?|?]; congruence.
Qed.

Lemma kle_trans (a b c : K) : kle a b -> kle b c -> kle a c.
Proof.
  rewrite !kle_cases. intros [H1| ->] [H2| ->]; auto.
  left. eapply cmp_lt_trans; eassumption.
Qed.
End OrderFacts.

Lemma kle_Z (a b : Z) : kle a b <-> a <= b.
Proof. unfold kle; simpl. rewrite Z.compare_gt_iff. lia. Qed.

Lemma kle_pair {K1 K2} `{Order K1} `{Order K2} (a : K1) (x y : K2) :
  kle (a, x) (a, y) <-> kle x y.
Proof. unfold kle; simpl. unfold lex_cmp; simpl. rewrite cmp_refl. tauto. Qed.

Lemma cmp_pair_same {K1 K2} `{Order K1} `{Order K2} (a : K1) (x y : K2) :
  cmp (a, x) (a, y) = cmp x y.
Proof. simpl. unfold lex_cmp; simpl. rewrite cmp_refl. reflexivity. Qed.

Lemma kleb_true {K} `{Order K} (a b : K) : kleb a b = true <-> kle a b.
Proof. unfold kleb, kle. destruct (cmp a b); split; congruence. Qed.

Lemma kleb_false {K} `{Order K} (a b : K) : kleb a b = false <-> cmp b a = Lt.
Proof.
  unfold kleb. rewrite <- cmp_gt_lt. destruct (cmp a b); split; congruence.
Qed.

(** ** Stable sorting *)

Section SortFacts.
Context {A : Type}.
Variable leb : A -> A -> bool.

Lemma insert_by_perm x l : Permutation (insert_by leb x l) (x :: l).
Proof.
  induction l as [|y l IH]; simpl; auto.
  destruct (leb x y); auto.
  rewrite IH. apply perm_swap.
Qed.

Lemma sort_by_perm l : Permutation (sort_by leb l) l.
Proof.
  induction l as [|x l IH]; simpl; auto.
  rewrite insert_by_perm. auto.
Qed.

Lemma sort_by_In x l : In x (sort_by leb l) <-> In x l.
Proof.
  split; apply Permutation_in;
    [apply sort_by_perm | apply Permutation_sym, sort_by_perm].
Qed.

Lemma sort_by_length l : length (sort_by leb l) = length l.
Proof. apply Permutation_length, sort_by_perm. Qed.

Hypothesis leb_total : forall a b, leb a b = true \/ leb b a = true.
Hypothesis leb_trans :
  forall a b c, leb a b = true -> leb b c = true -> leb a c = true.

Lemma insert_by_sorted x l :
  sorted_by leb l -> sorted_by leb (insert_by leb x l).
Proof.
  induction 1 as [|y l Hs IH Hy]; simpl.
  - constructor; constructor.
  - destruct (leb x y) eqn:E.
    + constructor; [constructor; auto|].
      constructor; auto.
      rewrite Forall_forall in *. intros z Hz.
      eapply leb_trans; [exact E|]. apply Hy, Hz.
    + constructor; auto.
      rewrite Forall_forall in *. intros z Hz.
      apply (Permutation_in _ (insert_by_perm x l)) in Hz.
      destruct Hz as [<-|Hz]; auto.
      destruct (leb_total x y) as [C|C]; congruence.
Qed.

Lemma sort_by_sorted l : sorted_by leb (sort_by leb l).
Proof.
  induction l; simpl; [constructor|]. apply insert_by_sorted. assumption.
Qed.

(** Selecting rows commutes with sorting: this is stability. *)
Lemma filter_insert_by (P : A -> bool) x l :
  sorted_by leb l ->
  filter P (insert_by leb x l) =
  if P x then insert_by leb x (filter P l) else filter P l.
Proof.
  induction 1 as [|y l Hs IH Hy]; simpl.
  - destruct (P x); reflexivity.
  - destruct (leb x y) eqn:E; simpl.
    + destruct (P x) eqn:Px; destruct (P y) eqn:Py; simpl;
        rewrite ?E; try reflexivity.
      assert (Hall : Forall (fun z => leb x z = true) (filter P l)).
      { rewrite Forall_forall in *. intros z Hz.
        apply filter_In in Hz. destruct Hz as [Hz _].
        eapply leb_trans; [exact E|]. apply Hy, Hz. }
      destruct (filter P l) as [|z fl]; simpl; auto.
      inversion Hall; subst. rewrite H1. reflexivity.
    + rewrite IH. destruct (P y) eqn:Py; destruct (P x) eqn:Px; simpl;
        rewrite ?E; reflexivity.
Qed.

Lemma filter_sort_by (P : A -> bool) l :
  filter P (sort_by leb l) = sort_by leb (filter P l).
Proof.
  induction l as [|x l IH]; simpl; auto.
  rewrite filter_insert_by by apply sort_by_sorted.
  rewrite IH. destruct (P x); reflexivity.
Qed.

Lemma sorted_by_last s r x :
  sorted_by leb (s ++ [r]) -> In x (s ++ [r]) -> leb x r = true.
Proof.
  induction s as [|y s IH]; simpl; intros Hs Hin.
  - destruct Hin as [<-|[]]. destruct (leb_total r r); assumption.
  - inversion Hs; subst. destruct Hin as [<-|Hin].
    + rewrite Forall_forall in H2. apply H2. apply in_or_app. right. left.
      reflexivity.
    + apply IH; assumption.
Qed.

Lemma insert_by_last x l s r :
  insert_by leb x l = s ++ [r] ->
  (r = x /\ s = l /\ Forall (fun y => leb x y = false) l) \/
  (exists s', l = s' ++ [r] /\ exists y, In y l /\ leb x y = true).
Proof.
  revert s. induction l as [|y l IH]; simpl; intros s Heq.
  - destruct s as [|z s]; simpl in Heq.
    + injection Heq as <-. left. auto.
    + injection Heq as _ Heq. destruct s; discriminate.
  - destruct (leb x y) eqn:E.
    + right. destruct s as [|z s]; simpl in Heq; [discriminate|].
      injection Heq as _ Heq. exists s. split; auto.
      exists y. split; simpl; auto.
    + destruct s as [|z s]; simpl in Heq.
      * injection Heq as _ Heq.
        destruct l as [|w l']; simpl in Heq; [|destruct (leb x w)];
          discriminate.
      * injection Heq as <- Heq.
        destruct (IH _ Heq) as [(-> & -> & Hall)|(s' & -> & w & Hw & Hxw)].
        -- left. repeat split; auto.
        -- right. exists (y :: s'). split; auto.
           exists w. split; simpl; auto.
Qed.

(** The last row of the sorted table is the last of the largest rows of
    the table as it was. *)
Lemma sort_by_last l s r :
  sort_by leb l = s ++ [r] ->
  exists l1 l2, l = l1 ++ r :: l2 /\
    Forall (fun x => leb x r = true) l1 /\
    Forall (fun x => leb r x = false) l2.
Proof.
  revert s r. induction l as [|x l IH]; simpl; intros s r Heq.
  - destruct s; discriminate.
  - apply insert_by_last in Heq.
    destruct Heq as [(-> & -> & Hall)|(s' & Hs' & y & Hy & Hxy)].
    + exists [], l. repeat split; auto.
      rewrite Forall_forall in *. intros z Hz. apply Hall, sort_by_In, Hz.
    + destruct (IH _ _ Hs') as (l1 & l2 & -> & H1 & H2).
      exists (x :: l1), l2. repeat split; auto.
      constructor; auto.
      eapply leb_trans; [exact Hxy|].
      eapply sorted_by_last; [|rewrite <- Hs'; exact Hy].
      rewrite <- Hs'. apply sort_by_sorted.
Qed.
End SortFacts.

(** Two orders that agree on the rows of [l] sort [l] alike. *)
Lemma insert_by_ext {A} (leb leb' : A -> A -> bool) x l :
  (forall y, In y l -> leb x y = leb' x y) ->
  insert_by leb x l = insert_by leb' x l.
Proof.
  induction l as [|y l IH]; simpl; intros Hc; auto.
  rewrite (Hc y) by auto.
  destruct (leb' x y); auto.
  f_equal. apply IH. intros; apply Hc; auto.
Qed.

Lemma sort_by_ext {A} (leb leb' : A -> A -> bool) l :
  (forall x y, In x l -> In y l -> leb x y = leb' x y) ->
  sort_by leb l = sort_by leb' l.
Proof.
  induction l as [|x l IH]; simpl; intros Hc; auto.
  rewrite IH by (intros; apply Hc; auto).
  apply insert_by_ext. intros y Hy.
  apply sort_by_In in Hy. apply Hc; auto.
Qed.

Section SortValuesFacts.
Context {A K : Type} `{Order K}.
Variable key : A -> K.

Lemma key_leb_total a b : key_leb key a b = true \/ key_leb key b a = true.
Proof. unfold key_leb. rewrite !kleb_true. apply kle_total. Qed.

Lemma key_leb_trans a b c :
  key_leb key a b = true -> key_leb key b c = true ->
  key_leb key a c = true.
Proof. unfold key_leb. rewrite !kleb_true. apply kle_trans. Qed.

Lemma sort_values_perm l : Permutation (sort_values key l) l.
Proof. apply sort_by_perm. Qed.

Lemma sort_values_In x l : In x (sort_values key l) <-> In x l.
Proof. apply sort_by_In. Qed.

Lemma sort_values_sorted l :
  StronglySorted (fun a b => kle (key a) (key b)) (sort_values key l).
Proof.
  pose proof (sort_by_sorted (key_leb key) key_leb_total key_leb_trans l) as Hs.
  unfold sorted_by in Hs.
  change (sort_values key l) with (sort_by (key_leb key) l).
  induction Hs; constructor; auto.
  eapply Forall_impl; [|eassumption].
  intros b Hb. apply kleb_true. exact Hb.
Qed.

Lemma filter_sort_values (P : A -> bool) l :
  filter P (sort_values key l) = sort_values key (filter P l).
Proof. apply filter_sort_by; [apply key_leb_total | apply key_leb_trans]. Qed.

Lemma sort_values_last l s r :
  sort_values key l = s ++ [r] ->
  exists l1 l2, l = l1 ++ r :: l2 /\
    Forall (fun x => kle (key x) (key r)) l1 /\
    Forall (fun x => cmp (key x) (key r) = Lt) l2.
Proof.
  intros Heq.
  destruct (sort_by_last (key_leb key) key_leb_total key_leb_trans l s r Heq)
    as (l1 & l2 & -> & H1 & H2).
  exists l1, l2. repeat split; auto.
  - eapply Forall_impl; [|exact H1]. intros a Ha. apply kleb_true. exact Ha.
  - eapply Forall_impl; [|exact H2]. intros a Ha. apply kleb_false. exact Ha.
Qed.
End SortValuesFacts.

Lemma sort_values_ext {A K K'} `{Order K} `{Order K'}
  (key : A -> K) (key' : A -> K') l :
  (forall x y, In x l -> In y l ->
     cmp (key x) (key y) = cmp (key' x) (key' y)) ->
  sort_values key l = sort_values key' l.
Proof.
  intros Hc. apply sort_by_ext. intros x y Hx Hy.
  unfold kleb. rewrite (Hc x y Hx Hy). reflexivity.
Qed.

(** ** Grouping *)

Lemma filter_nil_iff {A} (P : A -> bool) l :
  filter P l = [] <-> Forall (fun x => P x = false) l.
Proof.
  induction l as [|x l IH]; simpl.
  - split; auto.
  - destruct (P x) eqn:E; split; intros Hx.
    + discriminate.
    + inversion Hx; congruence.
    + constructor; auto. apply IH. exact Hx.
    + inversion Hx; subst. apply IH. assumption.
Qed.

Lemma filter_all {A} (P : A -> bool) l :
  Forall (fun x => P x = true) l -> filter P l = l.
Proof.
  induction 1 as [|x l Hx Hl IH]; simpl; auto.
  rewrite Hx, IH. reflexivity.
Qed.

Lemma filter_filter {A} (P Q : A -> bool) l :
  filter P (filter Q l) = filter (fun x => Q x && P x) l.
Proof.
  induction l as [|x l IH]; simpl; auto.
  destruct (Q x); simpl; [destruct (P x)|]; rewrite IH; reflexivity.
Qed.

Lemma filter_ext_on {A} (P Q : A -> bool) l :
  (forall x, In x l -> P x = Q x) -> filter P l = filter Q l.
Proof.
  induction l as [|x l IH]; simpl; intros Hpq; auto.
  rewrite (Hpq x) by auto. rewrite IH by auto. reflexivity.
Qed.

Section GroupFacts.
Context {A K : Type} `{Order K}.
Variable key : A -> K.

Lemma existsb_key l k :
  existsb (fun r => keq (key r) k) l = true <-> exists r, In r l /\ key r = k.
Proof.
  rewrite existsb_exists. split; intros (r & Hr & E); exists r; split; auto;
    apply keq_true; assumption.
Qed.

Lemma group_rows_In r k l : In r (group_rows key k l) <-> In r l /\ key r = k.
Proof. unfold group_rows. rewrite filter_In, keq_true. tauto. Qed.

Lemma group_rows_app k l1 l2 :
  group_rows key k (l1 ++ l2) = group_rows key k l1 ++ group_rows key k l2.
Proof. apply filter_app. Qed.

Lemma group_rows_key k l : Forall (fun r => key r = k) (group_rows key k l).
Proof.
  rewrite Forall_forall. intros r Hr. apply group_rows_In in Hr. tauto.
Qed.

Lemma group_rows_other k l :
  Forall (fun r => key r <> k) l -> group_rows key k l = [].
Proof.
  intros Hl. apply filter_nil_iff. eapply Forall_impl; [|exact Hl].
  intros r Hr. apply keq_false. exact Hr.
Qed.

Lemma group_rows_same k l :
  Forall (fun r => key r = k) l -> group_rows key k l = l.
Proof.
  intros Hl. apply filter_all. eapply Forall_impl; [|exact Hl].
  intros r Hr. apply keq_true. exact Hr.
Qed.

Lemma groupby_tail1_In r l : In r (groupby_tail1 key l) -> In r l.
Proof.
  induction l as [|x l IH]; simpl; auto.
  destruct (existsb _ l); simpl; intuition.
Qed.

(** Of every group [tail(1)] keeps the last row and nothing else. *)
Lemma groupby_tail1_group k l :
  group_rows key k (groupby_tail1 key l) =
  match rev (group_rows key k l) with
  | [] => []
  | r :: _ => [r]
  end.
Proof.
  induction l as [|x l IH]; simpl; auto.
  destruct (existsb (fun r' => keq (key r') (key x)) l) eqn:Ex.
  - rewrite IH. destruct (keq (key x) k) eqn:Ek; auto.
    simpl. apply keq_true in Ek. subst k.
    apply existsb_key in Ex. destruct Ex as (r & Hr & E).
    assert (Hin : In r (rev (group_rows key (key x) l))).
    { rewrite <- in_rev. apply group_rows_In. auto. }
    destruct (rev (group_rows key (key x) l)); simpl; [contradiction|].
    reflexivity.
  - simpl. rewrite IH. destruct (keq (key x) k) eqn:Ek; auto.
    apply keq_true in Ek. subst k.
    assert (Hnil : group_rows key (key x) l = []).
    { apply group_rows_other. rewrite Forall_forall. intros r Hr E.
      assert (C : existsb (fun r' => keq (key r') (key x)) l = true)
        by (apply existsb_key; eauto).
      congruence. }
    rewrite Hnil. reflexivity.
Qed.

Lemma uniq_In (k : K) l : In k (uniq l) <-> In k l.
Proof.
  induction l as [|x l IH]; simpl; [tauto|].
  destruct (existsb (keq x) l) eqn:Ex; simpl; rewrite IH; [|tauto].
  split; auto. intros [<-|Hk]; auto.
  apply existsb_exists in Ex. destruct Ex as (y & Hy & E).
  apply keq_true in E. subst. exact Hy.
Qed.

Lemma uniq_NoDup (l : list K) : NoDup (uniq l).
Proof.
  induction l as [|x l IH]; simpl; [constructor|].
  destruct (existsb (keq x) l) eqn:Ex; auto.
  constructor; auto. rewrite uniq_In. intros Hx.
  assert (C : existsb (keq x) l = true).
  { apply existsb_exists. exists x. split; auto. apply keq_refl. }
  congruence.
Qed.

Lemma group_keys_In k l :
  In k (group_keys key l) <-> exists r, In r l /\ key r = k.
Proof.
  unfold group_keys. rewrite sort_values_In, uniq_In, in_map_iff.
  split; intros (r & H1 & H2); exists r; auto.
Qed.

Lemma group_keys_NoDup l : NoDup (group_keys key l).
Proof.
  unfold group_keys.
  eapply Permutation_NoDup; [apply Permutation_sym, sort_values_perm|].
  apply uniq_NoDup.
Qed.

Lemma group_keys_nonempty k l :
  In k (group_keys key l) <-> group_rows key k l <> [].
Proof.
  rewrite group_keys_In. split.
  - intros (r & Hr & E) Hnil.
    assert (Hin : In r (group_rows key k l)) by (apply group_rows_In; auto).
    rewrite Hnil in Hin. exact Hin.
  - intros Hne. destruct (group_rows key k l) as [|r g] eqn:E; [congruence|].
    exists r. apply group_rows_In. rewrite E. left. reflexivity.
Qed.

End GroupFacts.

(** The rows of one collection after a group-wise step are the step's
    result on the rows of that collection. *)
Lemma group_rows_concat {B K} `{Order K} (key' : B -> K) (F : K -> list B)
  k ks :
  (forall k', Forall (fun b => key' b = k') (F k')) ->
  NoDup ks ->
  group_rows key' k (concat (map F ks)) =
  if existsb (keq k) ks then F k else [].
Proof.
  intros HF. induction 1 as [|k0 ks Hk0 Hnd IH]; simpl; auto.
  rewrite group_rows_app, IH.
  destruct (keq k k0) eqn:E; simpl.
  - apply keq_true in E. subst k0.
    rewrite group_rows_same by apply HF.
    destruct (existsb (keq k) ks) eqn:Ex.
    + apply existsb_exists in Ex. destruct Ex as (y & Hy & Ey).
      apply keq_true in Ey. subst. contradiction.
    + apply app_nil_r.
  - rewrite group_rows_other; auto.
    eapply Forall_impl; [|apply HF]. simpl. intros b -> Ek.
    subst. rewrite keq_refl in E. discriminate.
Qed.

Lemma group_rows_groupby_apply {A B K} `{Order K} (key : A -> K)
  (key' : B -> K) (f : list A -> list B) k l :
  (forall k', Forall (fun b => key' b = k') (f (group_rows key k' l))) ->
  f [] = [] ->
  group_rows key' k (groupby_apply key f l) = f (group_rows key k l).
Proof.
  intros Hf Hnil. unfold groupby_apply, groupby. rewrite map_map. simpl.
  rewrite (group_rows_concat key' (fun k' => f (group_rows key k' l)))
    by (auto using group_keys_NoDup).
  destruct (existsb (keq k) (group_keys key l)) eqn:Ex; auto.
  assert (Hg : group_rows key k l = []).
  { destruct (group_rows key k l) eqn:E; auto.
    assert (Hin : In k (group_keys key l))
      by (apply group_keys_nonempty; congruence).
    assert (C : existsb (keq k) (group_keys key l) = true).
    { apply existsb_exists. exists k. split; auto. apply keq_refl. }
    congruence. }
  rewrite Hg, Hnil. reflexivity.
Qed.

(** ** Subsequences *)

Lemma subseq_refl {A} (l : list A) : subseq l l.
Proof. induction l; [apply subseq_nil | apply subseq_keep; auto]. Qed.

Lemma subseq_In {A} (l1 l2 : list A) x : subseq l1 l2 -> In x l1 -> In x l2.
Proof. induction 1; simpl; intuition. Qed.

Lemma subseq_length {A} (l1 l2 : list A) :
  subseq l1 l2 -> (length l1 <= length l2)%nat.
Proof. induction 1; simpl; lia. Qed.

Lemma subseq_filter {A} (P : A -> bool) l : subseq (filter P l) l.
Proof.
  induction l as [|x l IH]; simpl; [constructor|].
  destruct (P x); [apply subseq_keep | apply subseq_skip]; auto.
Qed.

Lemma filter_subseq {A} (P : A -> bool) (l1 l2 : list A) :
  subseq l1 l2 -> subseq (filter P l1) (filter P l2).
Proof.
  induction 1; simpl; [constructor| |]; destruct (P x);
    try apply subseq_keep; try apply subseq_skip; auto.
Qed.

Lemma subseq_trans {A} (l1 l2 l3 : list A) :
  subseq l1 l2 -> subseq l2 l3 -> subseq l1 l3.
Proof.
  intros H12 H23. revert l1 H12.
  induction H23; intros l0 H12; auto.
  - apply subseq_skip. auto.
  - inversion H12; subst; [apply subseq_skip | apply subseq_keep]; auto.
Qed.

Lemma subseq_singleton {A} (l : list A) x :
  subseq l [x] -> l = [] \/ l = [x].
Proof.
  intros Hs. inversion Hs; subst.
  - left. inversion H1; reflexivity.
  - right. inversion H1; reflexivity.
Qed.

(** ** Comparisons of rationals *)

Lemma Qlt_bool_iff (x y : Q) : Qlt_bool x y = true <-> (x < y)%Q.
Proof.
  unfold Qlt_bool. rewrite negb_true_iff.
  destruct (Qle_bool y x) eqn:E.
  - apply Qle_bool_iff in E. split; [discriminate|].
    intros Hlt. exfalso. apply (Qlt_not_le _ _ Hlt E).
  - split; auto. intros _. apply Qnot_le_lt. intros Hle.
    apply Qle_bool_iff in Hle. congruence.
Qed.

Lemma Qlt_bool_false (x y : Q) : Qlt_bool x y = false <-> (y <= x)%Q.
Proof.
  unfold Qlt_bool. rewrite negb_false_iff. apply Qle_bool_iff.
Qed.

(** ** Sanitization *)

Section SanitizeFacts.
Variable ln : Q -> Q.

Lemma with_log_price_In (tbl : list Trade) (r : Row) :
  In r (with_log_price ln tbl) ->
  In (trade r) tbl /\ log_price r = ln (price_eth r).
Proof.
  unfold with_log_price. rewrite in_map_iff.
  intros (t & <- & Ht). simpl. auto.
Qed.

Lemma positive_prices_In (raw : list Trade) (t : Trade) :
  In t (positive_prices raw) <-> In t raw /\ (0 < price_eth t)%Q.
Proof. unfold positive_prices. rewrite filter_In, Qlt_bool_iff. tauto. Qed.

Lemma sanitize_In (raw : list Trade) (r : Row) :
  In r (sanitize ln raw) ->
  In r (with_log_price ln (positive_prices raw)) /\ twap_ok r = true.
Proof. unfold sanitize, twap_filter. rewrite filter_In. tauto. Qed.

Lemma rank_first_desc_from_fst {A K} `{Order K} (key : A -> K) (val : A -> Z)
  (all seen rest : list A) :
  map fst (rank_first_desc_from key val all seen rest) = rest.
Proof.
  revert seen. induction rest as [|r rest IH]; simpl; intros seen; auto.
  rewrite IH. reflexivity.
Qed.

Lemma map_fst_filter_subseq {A B} (P : A * B -> bool) (l : list (A * B)) :
  subseq (map fst (filter P l)) (map fst l).
Proof.
  induction l as [|x l IH]; simpl; [constructor|].
  destruct (P x); simpl; [apply subseq_keep | apply subseq_skip]; auto.
Qed.

Lemma rank_cap_subseq (tbl : list Row) : subseq (rank_cap tbl) tbl.
Proof.
  unfold rank_cap, groupby_rank_first_desc.
  pose proof (map_fst_filter_subseq
    (fun rr : Row * Z => snd rr <? cap_bound)
    (rank_first_desc_from collection_row block_row tbl [] tbl)) as Hs.
  rewrite rank_first_desc_from_fst in Hs. exact Hs.
Qed.

Lemma keep_latest_per_token_In (tbl : list Row) r :
  In r (keep_latest_per_token tbl) -> In r tbl.
Proof.
  unfold keep_latest_per_token. intros Hr.
  apply groupby_tail1_In in Hr. apply sort_values_In in Hr. exact Hr.
Qed.

Lemma deduplicated_In (raw : list Trade) r :
  In r (deduplicated ln raw) -> In r (sanitize ln raw).
Proof.
  unfold deduplicated, sort_by_block. intros Hr.
  apply sort_values_In in Hr. apply keep_latest_per_token_In in Hr. exact Hr.
Qed.

Lemma trade_filter_In (raw : list Trade) r :
  In r (trade_filter ln raw) -> In r (deduplicated ln raw).
Proof. unfold trade_filter. apply subseq_In, rank_cap_subseq. Qed.

(** C10: the logarithm of line 23 is taken only of the rows that passed
    the filter [price_eth > 0] of line 22; on every such row its argument
    is strictly positive, so [np.log] returns a finite number there, and
    that number is the row's [log_price]. *)
Theorem log_price_well_defined (raw : list Trade) (r : Row) :
  In r (with_log_price ln (positive_prices raw)) ->
  (0 < price_eth r)%Q /\ np_log ln (price_eth r) = Finite (log_price r).
Proof.
  intros Hr. apply with_log_price_In in Hr. destruct Hr as [Hin Hlog].
  apply positive_prices_In in Hin. destruct Hin as [_ Hpos].
  split; auto. unfold np_log.
  assert (E : Qlt_bool 0 (price_eth r) = true) by (apply Qlt_bool_iff; auto).
  rewrite E, Hlog. reflexivity.
Qed.

(** C8: a row that is left after sanitization, and so every row of the
    working set, has a [twap-bid] value and a price that is not below
    [twap-bid * TWAP_Buffer_PCT]: rows priced below the buffer and rows
    with no [twap-bid] are all dropped. *)
Theorem sanitize_twap_buffer (raw : list Trade) (r : Row) :
  In r (sanitize ln raw) \/ In r (trade_filter ln raw) ->
  exists bid, twap_bid r = Some bid /\
              (bid * TWAP_Buffer_PCT <= price_eth r)%Q.
Proof.
  intros Hr.
  assert (Hs : In r (sanitize ln raw)).
  { destruct Hr as [Hr|Hr]; auto.
    apply deduplicated_In, trade_filter_In, Hr. }
  apply sanitize_In in Hs. destruct Hs as [_ Hok].
  unfold twap_ok in Hok. destruct (twap_bid r) as [bid|]; [|discriminate].
  exists bid. split; auto. apply Qle_bool_iff. exact Hok.
Qed.
End SanitizeFacts.

(** ** Deduplication by token *)

Section DedupFacts.
Variable ln : Q -> Q.

Lemma token_group_sorted (tbl : list Row) (k : TokenKey) :
  group_rows token_row k
    (sort_values
       (fun r : Row =>
          (chain_id r, (contract_address r, (token_id r, block_number r))))
       tbl) =
  sort_values block_row (group_rows token_row k tbl).
Proof.
  unfold group_rows. rewrite filter_sort_values.
  apply sort_values_ext. intros x y Hx Hy.
  apply filter_In in Hx, Hy. destruct Hx as [_ Hx], Hy as [_ Hy].
  apply keq_true in Hx, Hy. unfold token_row, token_of in Hx, Hy.
  rewrite <- Hy in Hx. injection Hx as E1 E2 E3.
  rewrite E1, E2, E3. rewrite !cmp_pair_same. reflexivity.
Qed.

(** Of the rows of one token, lines 30-31 keep exactly one: the last, in
    the order of the table, of those with the largest block number. *)
Lemma keep_latest_per_token_group (tbl : list Row) (r : Row) :
  In r (keep_latest_per_token tbl) ->
  group_rows token_row (token_of r) (keep_latest_per_token tbl) = [r] /\
  exists l1 l2,
    group_rows token_row (token_of r) tbl = l1 ++ r :: l2 /\
    Forall (fun x : Row => block_number x <= block_number r) l1 /\
    Forall (fun x : Row => block_number x < block_number r) l2.
Proof.
  intros Hr. unfold keep_latest_per_token in *.
  fold token_row in *.
  set (S := sort_values _ tbl) in *.
  assert (Hg : In r (group_rows token_row (token_of r)
                       (groupby_tail1 token_row S))).
  { apply group_rows_In. auto. }
  rewrite groupby_tail1_group in Hg |- *.
  unfold S in Hg |- *. rewrite token_group_sorted in Hg |- *.
  destruct (rev (sort_values block_row (group_rows token_row (token_of r) tbl)))
    as [|r' s'] eqn:E; [contradiction|].
  destruct Hg as [->|[]]. split; auto.
  assert (E' : sort_values block_row (group_rows token_row (token_of r) tbl)
               = rev s' ++ [r]).
  { rewrite <- (rev_involutive (sort_values _ _)), E. reflexivity. }
  apply sort_values_last in E'. destruct E' as (l1 & l2 & Hl & H1 & H2).
  exists l1, l2. repeat split; auto.
Qed.

(** C6, as the code has it: a record that survives the trade filter is
    the only survivor of its token, and among the records of that token
    that pass sanitization, not among all the input records of the
    token, it is the last, in the order of the input rows, of those with
    the largest block number: none before it has a larger block, all
    after it have a strictly smaller one. *)
Theorem trade_filter_latest_per_token (raw : list Trade) (r : Row) :
  In r (trade_filter ln raw) ->
  group_rows token_row (token_of r) (trade_filter ln raw) = [r] /\
  exists l1 l2,
    group_rows token_row (token_of r) (sanitize ln raw) = l1 ++ r :: l2 /\
    Forall (fun x : Row => block_number x <= block_number r) l1 /\
    Forall (fun x : Row => block_number x < block_number r) l2.
Proof.
  intros Hr.
  assert (Hk : In r (keep_latest_per_token (sanitize ln raw))).
  { apply trade_filter_In in Hr. unfold deduplicated, sort_by_block in Hr.
    apply sort_values_In in Hr. exact Hr. }
  destruct (keep_latest_per_token_group _ _ Hk) as [Hone Hlast].
  split; auto.
  assert (Hd : group_rows token_row (token_of r) (deduplicated ln raw) = [r]).
  { unfold deduplicated, sort_by_block, group_rows.
    rewrite filter_sort_values. fold (group_rows token_row (token_of r)
      (keep_latest_per_token (sanitize ln raw))).
    rewrite Hone. reflexivity. }
  pose proof (filter_subseq (fun x => keq (token_row x) (token_of r)) _ _
                (rank_cap_subseq (deduplicated ln raw))) as Hs.
  fold (group_rows token_row (token_of r) (deduplicated ln raw)) in Hs.
  fold (trade_filter ln raw) in Hs.
  fold (group_rows token_row (token_of r) (trade_filter ln raw)) in Hs.
  rewrite Hd in Hs. apply subseq_singleton in Hs.
  destruct Hs as [Hs|Hs]; auto.
  assert (Hin : In r (group_rows token_row (token_of r) (trade_filter ln raw))).
  { apply group_rows_In. auto. }
  rewrite Hs in Hin. contradiction.
Qed.
End DedupFacts.

(** ** Ranks *)

Lemma count_nil {A} (P : A -> bool) : count P [] = 0.
Proof. reflexivity. Qed.

Lemma count_cons {A} (P : A -> bool) x l :
  count P (x :: l) = (if P x then 1 else 0) + count P l.
Proof. unfold count. simpl. destruct (P x); simpl length; lia. Qed.

Lemma count_app {A} (P : A -> bool) l1 l2 :
  count P (l1 ++ l2) = count P l1 + count P l2.
Proof. unfold count. rewrite filter_app, length_app. lia. Qed.

Lemma count_nonneg {A} (P : A -> bool) l : 0 <= count P l.
Proof. unfold count. lia. Qed.

Lemma count_group {A K} `{Order K} (key : A -> K) k (P : A -> bool) l :
  count (fun x => keq (key x) k && P x) l = count P (group_rows key k l).
Proof. unfold count, group_rows. rewrite filter_filter. reflexivity. Qed.

Section RankFacts.
Context {A : Type}.
Variable val : A -> Z.

Lemma larger_tied_le v l :
  count (larger val v) l + count (tied val v) l <= Z.of_nat (length l).
Proof.
  induction l as [|x l IH]; simpl length; rewrite ?count_nil, ?count_cons;
    [lia|].
  unfold larger at 1, tied at 1.
  destruct (Z.ltb_spec v (val x)); destruct (Z.eqb_spec (val x) v); lia.
Qed.

Lemma larger_mono v w l :
  v < w ->
  count (larger val w) l + count (tied val w) l <= count (larger val v) l.
Proof.
  intros Hvw. induction l as [|x l IH]; rewrite ?count_nil, ?count_cons;
    [lia|].
  unfold larger at 1 3, tied at 1.
  destruct (Z.ltb_spec w (val x)); destruct (Z.eqb_spec (val x) w);
    destruct (Z.ltb_spec v (val x)); lia.
Qed.

Lemma tied_self x l1 l2 :
  count (tied val (val x)) l1 + 1 <= count (tied val (val x)) (l1 ++ x :: l2).
Proof.
  rewrite count_app, count_cons.
  assert (E : tied val (val x) x = true) by apply Z.eqb_refl.
  rewrite E. pose proof (count_nonneg (tied val (val x)) l2). lia.
Qed.

Lemma rank_in_group_cons all seen r rest :
  rank_in_group val all seen (r :: rest) =
  (r, 1 + count (larger val (val r)) all + count (tied val (val r)) seen)
    :: rank_in_group val all (r :: seen) rest.
Proof. reflexivity. Qed.

Lemma rank_in_group_fst all seen rest :
  map fst (rank_in_group val all seen rest) = rest.
Proof.
  revert seen. induction rest as [|r rest IH]; intros seen; auto.
  rewrite rank_in_group_cons. simpl. rewrite IH. reflexivity.
Qed.

Lemma rank_in_group_at all seen rest q1 b rb q2 :
  rank_in_group val all seen rest = q1 ++ (b, rb) :: q2 ->
  rb = 1 + count (larger val (val b)) all + count (tied val (val b)) seen
         + count (tied val (val b)) (map fst q1).
Proof.
  revert seen rest. induction q1 as [|[x rx] q1 IH]; intros seen rest Heq;
    destruct rest as [|r rest]; try discriminate;
    rewrite rank_in_group_cons in Heq; cbn [app] in Heq.
  - pose proof (f_equal (hd (b, rb)) Heq) as Hh. cbn [hd] in Hh.
    pose proof (f_equal fst Hh) as H1. pose proof (f_equal snd Hh) as H2.
    cbn [fst snd] in H1, H2. subst r. rewrite <- H2.
    cbn [map]. rewrite count_nil. lia.
  - pose proof (f_equal (hd (b, rb)) Heq) as Hh. cbn [hd] in Hh.
    pose proof (f_equal fst Hh) as H1. cbn [fst] in H1. subst x.
    pose proof (f_equal (@tl _) Heq) as Ht. cbn [tl] in Ht.
    apply IH in Ht.
    cbn [map fst]. rewrite count_cons in Ht. rewrite count_cons. lia.
Qed.

Lemma ranks_fst g : map fst (ranks val g) = g.
Proof. apply rank_in_group_fst. Qed.

Lemma ranks_at g q1 b rb q2 :
  ranks val g = q1 ++ (b, rb) :: q2 ->
  g = map fst q1 ++ b :: map fst q2 /\
  rb = 1 + count (larger val (val b)) g + count (tied val (val b)) (map fst q1).
Proof.
  intros Heq. split.
  - rewrite <- (ranks_fst g), Heq, map_app. reflexivity.
  - apply rank_in_group_at in Heq. rewrite count_nil in Heq. lia.
Qed.

Lemma ranks_bounds g b rb :
  In (b, rb) (ranks val g) -> 1 <= rb <= Z.of_nat (length g).
Proof.
  intros Hin. apply in_split in Hin. destruct Hin as (q1 & q2 & Heq).
  apply ranks_at in Heq. destruct Heq as [Hg ->].
  pose proof (count_nonneg (larger val (val b)) g).
  pose proof (count_nonneg (tied val (val b)) (map fst q1)).
  pose proof (larger_tied_le (val b) g).
  pose proof (tied_self b (map fst q1) (map fst q2)) as Hs.
  rewrite <- Hg in Hs. lia.
Qed.

(** Of two rows of a group the earlier one has the smaller rank unless
    the later one has the larger value. *)
Lemma ranks_order g q1 a ra q2 b rb q3 :
  ranks val g = q1 ++ (a, ra) :: q2 ++ (b, rb) :: q3 ->
  (val b <= val a -> ra < rb) /\ (val a < val b -> rb < ra).
Proof.
  intros Heq.
  pose proof (ranks_at g q1 a ra _ Heq) as [Hga Hra].
  assert (Heq' : ranks val g = (q1 ++ (a, ra) :: q2) ++ (b, rb) :: q3)
    by (rewrite Heq, <- app_assoc; reflexivity).
  pose proof (ranks_at g _ b rb _ Heq') as [Hgb Hrb].
  rewrite map_app in Hrb, Hgb. simpl map in Hrb, Hgb.
  pose proof (tied_self a (map fst q1) (map fst (q2 ++ (b, rb) :: q3))) as Sa.
  rewrite <- Hga in Sa.
  pose proof (tied_self b (map fst q1 ++ a :: map fst q2) (map fst q3)) as Sb.
  rewrite <- Hgb in Sb.
  pose proof (count_nonneg (tied val (val b)) (map fst q1)).
  pose proof (count_nonneg (tied val (val b)) (map fst q2)).
  pose proof (count_nonneg (tied val (val a)) (map fst q1)).
  rewrite count_app, count_cons in Hrb, Sb.
  split; intros Hv.
  - destruct (Z.eq_dec (val a) (val b)) as [E|E].
    + assert (T : tied val (val b) a = true) by (apply Z.eqb_eq; exact E).
      rewrite T in Hrb. rewrite E in *. lia.
    + pose proof (larger_mono (val b) (val a) g).
      destruct (tied val (val b) a); lia.
  - pose proof (larger_mono (val a) (val b) g Hv).
    assert (T : tied val (val b) a = false) by (apply Z.eqb_neq; lia).
    rewrite T in Hrb, Sb. lia.
Qed.

Lemma NoDup_map_split {B C} (f : B -> C) (l : list B) :
  (forall q1 x q2 y q3, l = q1 ++ x :: q2 ++ y :: q3 -> f x <> f y) ->
  NoDup (map f l).
Proof.
  induction l as [|x l IH]; simpl; intros Hd; constructor.
  - rewrite in_map_iff. intros (y & Ey & Hy).
    apply in_split in Hy. destruct Hy as (q2 & q3 & ->).
    apply (Hd [] x q2 y q3); auto.
  - apply IH. intros q1 a q2 b q3 ->.
    apply (Hd (x :: q1) a q2 b q3). reflexivity.
Qed.

Lemma ranks_NoDup g : NoDup (map snd (ranks val g)).
Proof.
  apply NoDup_map_split. intros q1 [a ra] q2 [b rb] q3 Heq. simpl.
  apply ranks_order in Heq. destruct Heq as [H1 H2].
  destruct (Z_le_gt_dec (val b) (val a)); lia.
Qed.

Lemma ranks_length g : length (ranks val g) = length g.
Proof. rewrite <- (ranks_fst g) at 2. rewrite length_map. reflexivity. Qed.

(** The ranks of a group of [n] rows are the numbers 1 to [n]. *)
Lemma ranks_perm g :
  Permutation (map snd (ranks val g)) (map Z.of_nat (seq 1 (length g))).
Proof.
  apply NoDup_Permutation_bis.
  - apply ranks_NoDup.
  - rewrite !length_map, length_seq, ranks_length. lia.
  - intros z Hz. apply in_map_iff in Hz. destruct Hz as ([b rb] & <- & Hin).
    simpl. apply ranks_bounds in Hin.
    apply in_map_iff. exists (Z.to_nat rb). split; [lia|].
    apply in_seq. lia.
Qed.
End RankFacts.

Lemma filter_perm_length {A} (P : A -> bool) (l l' : list A) :
  Permutation l l' -> length (filter P l) = length (filter P l').
Proof.
  induction 1; simpl; auto.
  - destruct (P x); simpl; congruence.
  - destruct (P x); destruct (P y); simpl; reflexivity.
  - congruence.
Qed.

Lemma filter_below_seq (N : Z) (n : nat) :
  1 <= N ->
  length (filter (fun z => z <? N) (map Z.of_nat (seq 1 n))) =
  Nat.min n (Z.to_nat (N - 1)).
Proof.
  intros HN. induction n as [|n IH]; auto.
  rewrite seq_S, map_app, filter_app, length_app, IH. cbn [map filter].
  destruct (Z.ltb_spec (Z.of_nat (1 + n)) N); cbn [length]; lia.
Qed.

Lemma length_filter_map_snd {A} (P : Z -> bool) (l : list (A * Z)) :
  length (filter (fun rr => P (snd rr)) l) = length (filter P (map snd l)).
Proof.
  induction l as [|x l IH]; simpl; auto.
  destruct (P (snd x)); simpl; rewrite IH; reflexivity.
Qed.

(** Below a bound [N] there are [N - 1] ranks, or as many as the group
    has rows. *)
Lemma ranks_below {A} (val : A -> Z) (N : Z) (g : list A) :
  1 <= N ->
  length (filter (fun rr => snd rr <? N) (ranks val g)) =
  Nat.min (length g) (Z.to_nat (N - 1)).
Proof.
  intros HN.
  rewrite (length_filter_map_snd (fun z => z <? N)).
  rewrite (filter_perm_length _ _ _ (ranks_perm val g)).
  apply filter_below_seq. exact HN.
Qed.

Lemma group_rows_cons {A K} `{Order K} (key : A -> K) k r l :
  group_rows key k (r :: l) =
  if keq (key r) k then r :: group_rows key k l else group_rows key k l.
Proof. reflexivity. Qed.

Lemma rank_from_group {A K} `{Order K} (key : A -> K) (val : A -> Z) k
  (all seen rest : list A) :
  filter (fun rr => keq (key (fst rr)) k)
    (rank_first_desc_from key val all seen rest) =
  rank_in_group val (group_rows key k all) (group_rows key k seen)
    (group_rows key k rest).
Proof.
  revert seen. induction rest as [|r rest IH]; intros seen; auto.
  cbn [rank_first_desc_from filter fst]. rewrite group_rows_cons.
  destruct (keq (key r) k) eqn:E.
  - rewrite rank_in_group_cons, IH, group_rows_cons, E.
    apply keq_true in E. subst k. rewrite <- !count_group. reflexivity.
  - rewrite IH, group_rows_cons, E. reflexivity.
Qed.

Lemma filter_map_fst {A B} (P : A -> bool) (l : list (A * B)) :
  filter P (map fst l) = map fst (filter (fun x => P (fst x)) l).
Proof.
  induction l as [|x l IH]; simpl; auto.
  destruct (P (fst x)); simpl; rewrite IH; reflexivity.
Qed.

Lemma filter_comm {A} (P Q : A -> bool) l :
  filter P (filter Q l) = filter Q (filter P l).
Proof.
  rewrite !filter_filter. apply filter_ext_on. intros x _. apply andb_comm.
Qed.

Lemma in_two_split {A} (x y : A) l :
  In x l -> In y l -> x <> y ->
  (exists q1 q2 q3, l = q1 ++ x :: q2 ++ y :: q3) \/
  (exists q1 q2 q3, l = q1 ++ y :: q2 ++ x :: q3).
Proof.
  intros Hx Hy Hxy. apply in_split in Hx. destruct Hx as (l1 & l2 & ->).
  apply in_app_or in Hy. destruct Hy as [Hy|[Hy|Hy]].
  - right. apply in_split in Hy. destruct Hy as (q1 & q2 & ->).
    exists q1, q2, l2. rewrite <- app_assoc. reflexivity.
  - contradiction.
  - left. apply in_split in Hy. destruct Hy as (q2 & q3 & ->).
    exists l1, q2, q3. reflexivity.
Qed.

(** ** The cap on the working set *)

Section CapFacts.
Variable ln : Q -> Q.

(** The rows of one collection that pass the cap are those whose rank
    within the collection is below the bound. *)
Lemma rank_cap_group (tbl : list Row) (c : CollectionKey) :
  group_rows collection_row c (rank_cap tbl) =
  map fst (filter (fun rr => snd rr <? cap_bound)
             (ranks block_row (group_rows collection_row c tbl))).
Proof.
  unfold rank_cap, groupby_rank_first_desc, group_rows at 1.
  rewrite filter_map_fst, filter_comm.
  rewrite (rank_from_group collection_row block_row c tbl [] tbl).
  reflexivity.
Qed.

Lemma working_set_length (raw : list Trade) (c : CollectionKey) :
  length (group_rows collection_row c (trade_filter ln raw)) =
  Nat.min (length (group_rows collection_row c (deduplicated ln raw)))
          (Z.to_nat (cap_bound - 1)).
Proof.
  unfold trade_filter. rewrite rank_cap_group, length_map.
  apply ranks_below. unfold cap_bound. cbv. discriminate.
Qed.

End CapFacts.

(** ** Lookback windows *)

Lemma StronglySorted_subseq {A} (R : A -> A -> Prop) (l1 l2 : list A) :
  subseq l1 l2 -> StronglySorted R l2 -> StronglySorted R l1.
Proof.
  induction 1 as [|x l1 l2 Hs IH|x l1 l2 Hs IH]; intros Hl; auto.
  - inversion Hl; subst. auto.
  - inversion Hl; subst. constructor; auto.
    rewrite Forall_forall in *. intros y Hy. apply H2.
    eapply subseq_In; eassumption.
Qed.

Lemma StronglySorted_impl_in {A} (R R' : A -> A -> Prop) (l : list A) :
  (forall x y, In x l -> In y l -> R x y -> R' x y) ->
  StronglySorted R l -> StronglySorted R' l.
Proof.
  intros Himp Hs. induction Hs as [|x l Hs IH Hx]; constructor.
  - apply IH. intros a b Ha Hb. apply Himp; simpl; auto.
  - rewrite Forall_forall in *. intros y Hy.
    apply Himp; simpl; auto.
Qed.

Lemma StronglySorted_before {A} (R : A -> A -> Prop) (l1 l2 : list A) x :
  StronglySorted R (l1 ++ x :: l2) -> Forall (fun y => R y x) l1.
Proof.
  induction l1 as [|y l1 IH]; simpl; intros Hs; constructor;
    inversion Hs; subst.
  - rewrite Forall_forall in H2. apply H2. apply in_or_app. right. left.
    reflexivity.
  - apply IH. assumption.
Qed.

Lemma iloc_last_nil {A} (n : Z) : iloc_last n (@nil A) = [].
Proof. unfold iloc_last. destruct (n <=? 0); apply skipn_nil. Qed.

Lemma iloc_last_subseq {A} (n : Z) (l : list A) : subseq (iloc_last n l) l.
Proof.
  assert (Hsk : forall k (l0 : list A), subseq (skipn k l0) l0).
  { induction k as [|k IH]; intros [|x l0]; simpl;
      auto using subseq_refl, subseq_nil. apply subseq_skip. apply IH. }
  unfold iloc_last. destruct (n <=? 0); apply Hsk.
Qed.

(** The last [n] rows of a table that ends in [x] end in [x]. *)
Lemma iloc_last_snoc {A} (n : Z) (l : list A) (x : A) :
  0 < n ->
  exists l1 l2, l = l1 ++ l2 /\ iloc_last n (l ++ [x]) = l2 ++ [x] /\
                (length (l2 ++ [x]) <= Z.to_nat n)%nat.
Proof.
  intros Hn. unfold iloc_last.
  destruct (Z.leb_spec n 0) as [|_]; [lia|].
  rewrite last_length.
  set (k := (S (length l) - Z.to_nat n)%nat).
  exists (firstn k l), (skipn k l). split; [|split].
  - symmetry. apply firstn_skipn.
  - rewrite skipn_app.
    replace (k - length l)%nat with 0%nat by (unfold k; lia).
    reflexivity.
  - rewrite last_length, length_skipn. unfold k. lia.
Qed.

Lemma rolling_from_rows (lookback : Z) (seen rows : list Row) :
  map row (rolling_from lookback seen rows) = rows.
Proof.
  revert seen. induction rows as [|r rows IH]; intros seen; simpl; auto.
  rewrite IH. reflexivity.
Qed.

Lemma rolling_from_at (lookback : Z) (seen rows : list Row) q1 (w : LRow) q2 :
  rolling_from lookback seen rows = q1 ++ w :: q2 ->
  log_prices_lookback w =
  map log_price
    (rev (firstn (Z.to_nat lookback) (row w :: rev (map row q1) ++ seen))).
Proof.
  revert seen rows. induction q1 as [|x q1 IH]; intros seen rows Heq;
    destruct rows as [|r rows]; try discriminate; simpl in Heq.
  - injection Heq as <- _. reflexivity.
  - injection Heq as <- Heq. apply IH in Heq. rewrite Heq.
    simpl map. simpl rev. rewrite <- app_assoc. reflexivity.
Qed.

Lemma create_lookback_rows (lookback : Z) (rows : list Row) :
  map row (create_lookback lookback rows) = rows.
Proof. apply rolling_from_rows. Qed.

Lemma create_lookback_nil (lookback : Z) : create_lookback lookback [] = [].
Proof. reflexivity. Qed.

(** A row's window holds the log-prices of the last [lookback] rows of
    the table up to and including that row. *)
Lemma create_lookback_at (lookback : Z) (rows : list Row) q1 (w : LRow) q2 :
  0 < lookback ->
  create_lookback lookback rows = q1 ++ w :: q2 ->
  rows = map row q1 ++ row w :: map row q2 /\
  log_prices_lookback w =
  map log_price (iloc_last lookback (map row q1 ++ [row w])).
Proof.
  intros Hpos Heq. split.
  - rewrite <- (create_lookback_rows lookback rows), Heq, map_app.
    reflexivity.
  - apply rolling_from_at in Heq. rewrite Heq, app_nil_r. f_equal.
    unfold iloc_last. destruct (Z.leb_spec lookback 0) as [|_]; [lia|].
    rewrite last_length.
    destruct (Z.to_nat lookback) as [|m] eqn:Em; [lia|].
    simpl firstn. simpl rev. rewrite firstn_rev, rev_involutive.
    rewrite skipn_app.
    replace (S (length (map row q1)) - S m - length (map row q1))%nat
      with 0%nat by lia.
    reflexivity.
Qed.

Section WindowFacts.
Variable ln : Q -> Q.

Lemma collection_order (x y : Row) :
  collection_row x = collection_row y ->
  kle (chain_id x, (contract_address x, block_number x))
      (chain_id y, (contract_address y, block_number y)) ->
  block_number x <= block_number y.
Proof.
  unfold collection_row, collection_of. intros E Hle.
  injection E as E1 E2. rewrite E1, E2 in Hle.
  rewrite !kle_pair in Hle. apply kle_Z. exact Hle.
Qed.

Lemma deduplicated_sorted (raw : list Trade) :
  StronglySorted
    (fun a b : Row =>
       kle (chain_id a, (contract_address a, block_number a))
           (chain_id b, (contract_address b, block_number b)))
    (deduplicated ln raw).
Proof. unfold deduplicated, sort_by_block. apply sort_values_sorted. Qed.

(** The rows of a collection in the working set are in block order. *)
Lemma working_set_sorted (raw : list Trade) (c : CollectionKey) :
  StronglySorted (fun a b : Row => block_number a <= block_number b)
    (working_set ln raw c).
Proof.
  unfold working_set.
  eapply StronglySorted_impl_in;
    [|eapply StronglySorted_subseq;
       [|apply (deduplicated_sorted raw)]].
  - intros x y Hx Hy. apply group_rows_In in Hx, Hy. simpl.
    apply collection_order. destruct Hx, Hy. congruence.
  - eapply subseq_trans; [apply subseq_filter|].
    unfold trade_filter. apply rank_cap_subseq.
Qed.

Lemma working_set_In (raw : list Trade) (c : CollectionKey) (r : Row) :
  In r (working_set ln raw c) <->
  In r (trade_filter ln raw) /\ collection_of r = c.
Proof.
  unfold working_set. rewrite group_rows_In. unfold collection_row. tauto.
Qed.

Lemma create_lookback_keys (lookback : Z) (rows : list Row) c :
  Forall (fun r => collection_row r = c) rows ->
  Forall (fun w => collection_lrow w = c) (create_lookback lookback rows).
Proof.
  intros Hrows. rewrite Forall_forall in *. intros w Hw.
  apply Hrows. rewrite <- (create_lookback_rows lookback rows).
  apply in_map. exact Hw.
Qed.

(** The rows of one collection in the lookback table. *)
Lemma lookback_table_group (tbl : list Row) (c : CollectionKey) :
  group_rows collection_lrow c (lookback_table tbl) =
  create_lookback LOOKBACK (group_rows collection_row c tbl).
Proof.
  unfold lookback_table. apply group_rows_groupby_apply.
  - intros k. apply create_lookback_keys, group_rows_key.
  - reflexivity.
Qed.

(** C7: the window of a row [w] of the lookback table holds the
    log-prices of a run of consecutive rows of [w]'s collection in the
    working set, in table order, that ends with [w]'s own trade; it
    has at most [LOOKBACK] entries, and every trade in it survived the
    trade filter, is of the same collection and has a block number not
    above that of [w]. *)
Theorem lookback_window_causal (raw : list Trade) (w : LRow) :
  In w (lookback_table (trade_filter ln raw)) ->
  exists pre ts post,
    working_set ln raw (collection_of w) = pre ++ ts ++ row w :: post /\
    log_prices_lookback w = map log_price (ts ++ [row w]) /\
    (length (log_prices_lookback w) <= Z.to_nat LOOKBACK)%nat /\
    Forall (fun t : Row =>
              In t (trade_filter ln raw) /\
              collection_of t = collection_of w /\
              block_number t <= block_number w)
           (ts ++ [row w]).
Proof.
  intros Hw.
  assert (Hg : In w (group_rows collection_lrow (collection_of w)
                       (lookback_table (trade_filter ln raw)))).
  { apply group_rows_In. auto. }
  rewrite lookback_table_group in Hg.
  fold (working_set ln raw (collection_of w)) in Hg.
  apply in_split in Hg. destruct Hg as (q1 & q2 & Heq).
  apply create_lookback_at in Heq; [|reflexivity].
  destruct Heq as [Hrows Hwin].
  destruct (iloc_last_snoc LOOKBACK (map row q1) (row w)) as
    (l1 & l2 & Hsplit & Hlast & Hlen); [reflexivity|].
  exists l1, l2, (map row q2).
  assert (Hws : working_set ln raw (collection_of w)
                = (l1 ++ l2) ++ row w :: map row q2)
    by (rewrite <- Hsplit; exact Hrows).
  split; [rewrite Hws, <- app_assoc; reflexivity|].
  split; [rewrite Hwin, Hlast; reflexivity|].
  split; [rewrite Hwin, Hlast, length_map; exact Hlen|].
  pose proof (working_set_sorted raw (collection_of w)) as Hs.
  rewrite Hws in Hs. apply StronglySorted_before in Hs.
  rewrite Forall_forall in *. intros t Ht.
  assert (Hin : In t (working_set ln raw (collection_of w))).
  { rewrite Hws. apply in_app_or in Ht. destruct Ht as [Ht|[<-|[]]].
    - apply in_or_app. left. apply in_or_app. right. exact Ht.
    - apply in_or_app. right. left. reflexivity. }
  apply working_set_In in Hin. destruct Hin as [Hin Hc].
  repeat split; auto.
  apply in_app_or in Ht. destruct Ht as [Ht|[<-|[]]]; [|lia].
  apply Hs. apply in_or_app. right. exact Ht.
Qed.
End WindowFacts.

(** ** The quantile estimator and the controller *)

Lemma Qle_bool_total (a b : Q) : Qle_bool a b = true \/ Qle_bool b a = true.
Proof.
  rewrite !Qle_bool_iff. destruct (Qlt_le_dec a b) as [Hlt|Hle]; auto.
  left. apply Qlt_le_weak. exact Hlt.
Qed.

Lemma Qle_bool_trans (a b c : Q) :
  Qle_bool a b = true -> Qle_bool b c = true -> Qle_bool a c = true.
Proof. rewrite !Qle_bool_iff. apply Qle_trans. Qed.

Lemma sort_Q_sorted (x : list Q) : StronglySorted Qle (sort_by Qle_bool x).
Proof.
  pose proof (sort_by_sorted Qle_bool Qle_bool_total Qle_bool_trans x) as Hs.
  unfold sorted_by in Hs.
  induction Hs; constructor; auto.
  eapply Forall_impl; [|eassumption].
  intros b Hb. apply Qle_bool_iff. exact Hb.
Qed.

Lemma sorted_nth_le (s : list Q) (a b : nat) :
  StronglySorted Qle s -> (a <= b < length s)%nat ->
  (nth a s 0 <= nth b s 0)%Q.
Proof.
  intros Hs. revert a b. induction Hs as [|x s Hs IH Hx]; intros a b Hab.
  - simpl in Hab. lia.
  - destruct a as [|a], b as [|b]; simpl in *; try lia.
    + apply Qle_refl.
    + rewrite Forall_forall in Hx. apply Hx. apply nth_In. lia.
    + apply IH. lia.
Qed.

Lemma nth_clamped_mono (s : list Q) (i j : Z) :
  StronglySorted Qle s -> s <> [] -> i <= j ->
  (nth_clamped s i <= nth_clamped s j)%Q.
Proof.
  intros Hs Hne Hij. unfold nth_clamped.
  assert (0 < length s)%nat by (destruct s; simpl; [congruence|lia]).
  apply sorted_nth_le; auto. lia.
Qed.

(** The interpolated order statistic does not decrease with [p]. *)
Lemma interpolate_mono (s : list Q) (p1 p2 : Q) :
  StronglySorted Qle s -> s <> [] -> (p1 <= p2)%Q ->
  (interpolate s p1 <= interpolate s p2)%Q.
Proof.
  intros Hs Hne Hp. unfold interpolate.
  assert (Hn : (0 <= inject_Z (Z.of_nat (length s) - 1))%Q).
  { destruct s; [congruence|]. simpl length.
    change 0%Q with (inject_Z 0). rewrite <- Zle_Qle. lia. }
  set (n1 := inject_Z (Z.of_nat (length s) - 1)) in *.
  set (r1 := (p1 * n1)%Q). set (r2 := (p2 * n1)%Q).
  assert (Hr : (r1 <= r2)%Q) by (unfold r1, r2; nra).
  pose proof (Qfloor_resp_le _ _ Hr) as Hi.
  pose proof (Qfloor_le r1) as F1. pose proof (Qlt_floor r1) as G1.
  pose proof (Qfloor_le r2) as F2. pose proof (Qlt_floor r2) as G2.
  set (i1 := Qfloor r1) in *. set (i2 := Qfloor r2) in *.
  rewrite inject_Z_plus in G1, G2.
  pose proof (nth_clamped_mono s i1 (i1 + 1) Hs Hne ltac:(lia)) as M1.
  pose proof (nth_clamped_mono s i2 (i2 + 1) Hs Hne ltac:(lia)) as M2.
  set (L1 := nth_clamped s i1) in *. set (H1 := nth_clamped s (i1 + 1)) in *.
  set (L2 := nth_clamped s i2) in *. set (H2 := nth_clamped s (i2 + 1)) in *.
  change (inject_Z 1) with 1%Q in G1, G2.
  destruct (Z.eq_dec i1 i2) as [E|E].
  - subst L2 H2. rewrite <- E in *. fold L1 H1.
    clearbody L1 H1 r1 r2 i1. clear E.
    assert (P : (0 <= (r2 - r1) * (H1 - L1))%Q)
      by (apply Qmult_le_0_compat; lra).
    lra.
  - pose proof (nth_clamped_mono s (i1 + 1) i2 Hs Hne ltac:(lia)) as M12.
    fold H1 L2 in M12.
    clearbody L1 H1 L2 H2 r1 r2 i1 i2.
    assert (P1 : (0 <= (inject_Z i1 + 1 - r1) * (H1 - L1))%Q)
      by (apply Qmult_le_0_compat; lra).
    assert (P2 : (0 <= (r2 - inject_Z i2) * (H2 - L2))%Q)
      by (apply Qmult_le_0_compat; lra).
    lra.
Qed.

(** C9: on a non-empty sequence the quantile is defined at every
    probability, and for probabilities [p1 <= p2] in [[0,1]] its value at
    [p1] is not above its value at [p2]. *)
Theorem compute_quantile_monotone (x : list Q) (p1 p2 : Q) :
  x <> [] -> (0 <= p1)%Q -> (p1 <= p2)%Q -> (p2 <= 1)%Q ->
  exists q1 q2,
    compute_quantile x p1 = Ok q1 /\ compute_quantile x p2 = Ok q2 /\
    (q1 <= q2)%Q.
Proof.
  intros Hne _ Hp _. destruct x as [|v x]; [congruence|].
  unfold compute_quantile.
  exists (interpolate (sort_by Qle_bool (v :: x)) p1),
         (interpolate (sort_by Qle_bool (v :: x)) p2).
  repeat split.
  apply interpolate_mono; auto.
  - apply sort_Q_sorted.
  - intros E. apply (f_equal (@length Q)) in E.
    rewrite sort_by_length in E. discriminate.
Qed.

Lemma clamp_bounds (x lo hi : Q) :
  (lo <= hi)%Q -> (lo <= clamp x lo hi <= hi)%Q.
Proof.
  intros Hle. unfold clamp.
  destruct (Qlt_bool x lo) eqn:E1.
  - split; [apply Qle_refl|exact Hle].
  - apply Qlt_bool_false in E1. destruct (Qlt_bool hi x) eqn:E2.
    + split; [exact Hle|apply Qle_refl].
    + apply Qlt_bool_false in E2. split; assumption.
Qed.

Lemma compute_quantile_ok (x : list Q) (p : Q) :
  x <> [] -> compute_quantile x p = Ok (interpolate (sort_by Qle_bool x) p).
Proof. destruct x; [congruence|reflexivity]. Qed.

Lemma compute_quantile_raise (x : list Q) (p : Q) (e : error) :
  compute_quantile x p = Raise e <-> x = [] /\ e = InsufficientDataError.
Proof.
  destruct x; simpl; split.
  - intros E. split; [reflexivity|congruence].
  - intros [_ ->]. reflexivity.
  - intros E. discriminate E.
  - intros [E _]. discriminate E.
Qed.

(** ** Rows and groups through the later steps *)

Lemma group_rows_map {A B K} `{Order K} (key : A -> K) (key' : B -> K)
  (g : A -> B) k l :
  (forall x, key' (g x) = key x) ->
  group_rows key' k (map g l) = map g (group_rows key k l).
Proof.
  intros Hk. induction l as [|x l IH]; simpl; auto.
  rewrite Hk. destruct (keq (key x) k); simpl; rewrite IH; reflexivity.
Qed.

Lemma groupby_apply_In {A B K} `{Order K} (key : A -> K)
  (f : list A -> list B) l x :
  In x (groupby_apply key f l) ->
  exists k, In x (f (group_rows key k l)).
Proof.
  unfold groupby_apply, groupby. rewrite map_map. simpl.
  intros Hx. apply in_concat in Hx. destruct Hx as (g & Hg & Hx).
  apply in_map_iff in Hg. destruct Hg as (k & <- & _).
  exists k. exact Hx.
Qed.

Lemma filter_keq_NoDup {K} `{Order K} (k : K) (ks : list K) :
  NoDup ks -> In k ks -> filter (fun k' => keq k' k) ks = [k].
Proof.
  induction 1 as [|k0 ks Hk0 Hnd IH]; simpl; intros Hin; [contradiction|].
  destruct (keq k0 k) eqn:E.
  - apply keq_true in E. subst k0. f_equal.
    apply filter_nil_iff. rewrite Forall_forall. intros y Hy.
    apply keq_false. intros ->. contradiction.
  - destruct Hin as [->|Hin]; [rewrite keq_refl in E; discriminate|].
    apply IH. exact Hin.
Qed.

Lemma flat_map_singleton {A B} (f : A -> list B) (g : A -> B) l :
  (forall x, In x l -> f x = [g x]) -> flat_map f l = map g l.
Proof.
  induction l as [|x l IH]; simpl; intros Hf; auto.
  rewrite (Hf x) by auto. rewrite IH by auto. reflexivity.
Qed.

Lemma filter_map_comm {A B} (P : B -> bool) (g : A -> B) l :
  filter P (map g l) = map g (filter (fun x => P (g x)) l).
Proof.
  induction l as [|x l IH]; simpl; auto.
  destruct (P (g x)); simpl; rewrite IH; reflexivity.
Qed.

(** ** Row-wise passes that may raise *)

Lemma apply_rows_ok {A B} (f : A -> result B) (g : A -> B) l :
  (forall x, In x l -> f x = Ok (g x)) -> apply_rows f l = Ok (map g l).
Proof.
  induction l as [|x l IH]; simpl; intros Hf; auto.
  rewrite (Hf x) by auto. simpl. rewrite IH by auto. reflexivity.
Qed.

Lemma apply_rows_raise {A B} (f : A -> result B) l x e :
  (forall y e', In y l -> f y = Raise e' -> e' = e) ->
  In x l -> f x = Raise e -> apply_rows f l = Raise e.
Proof.
  induction l as [|y l IH]; simpl; intros He Hin Hx; [contradiction|].
  destruct (f y) as [b|e'] eqn:Ey; simpl.
  - destruct Hin as [->|Hin]; [congruence|].
    rewrite (IH (fun z e0 Hz => He z e0 (or_intror Hz)) Hin Hx).
    reflexivity.
  - rewrite (He y e' (or_introl eq_refl) Ey). reflexivity.
Qed.

Lemma assign_apply_rows {A B} (f : A -> result B) l :
  l <> [] -> assign_apply f l = apply_rows f l.
Proof. destruct l; [congruence|reflexivity]. Qed.

Lemma In_not_nil {A} (x : A) l : In x l -> l <> [].
Proof. intros Hx ->. exact Hx. Qed.

Lemma map_not_nil {A B} (f : A -> B) l : l <> [] -> map f l <> [].
Proof. destruct l; [congruence|discriminate]. Qed.

(** ** The run *)

Section RunFacts.
Variables ln exp : Q -> Q.
Variable remove_outliers : list Q -> list Q.

Lemma backtest_table_group (tbl : list LRow) (c : CollectionKey) :
  group_rows collection_lrow c (backtest_table tbl) =
  iloc_last BACKTEST (group_rows collection_lrow c tbl).
Proof.
  unfold backtest_table. apply group_rows_groupby_apply.
  - intros k. rewrite Forall_forall. intros w Hw.
    apply (subseq_In _ _ _ (iloc_last_subseq _ _)) in Hw.
    apply group_rows_In in Hw. tauto.
  - apply iloc_last_nil.
Qed.

Lemma horizon_group (raw : list Trade) (c : CollectionKey) :
  group_rows collection_lrow c (backtest_rows ln raw) = horizon ln raw c.
Proof.
  unfold backtest_rows in *.
  rewrite backtest_table_group, lookback_table_group. reflexivity.
Qed.

Lemma backtest_table_In (tbl : list LRow) (w : LRow) :
  In w (backtest_table tbl) -> In w tbl.
Proof.
  intros Hw. apply groupby_apply_In in Hw. destruct Hw as (k & Hw).
  apply (subseq_In _ _ _ (iloc_last_subseq _ _)) in Hw.
  apply group_rows_In in Hw. tauto.
Qed.

(** A window holds at least the log-price of its own row. *)
Lemma window_nonempty (tbl : list Row) (w : LRow) :
  In w (lookback_table tbl) -> log_prices_lookback w <> [].
Proof.
  intros Hw. apply groupby_apply_In in Hw. destruct Hw as (k & Hw).
  apply in_split in Hw. destruct Hw as (q1 & q2 & Heq).
  apply create_lookback_at in Heq; [|reflexivity].
  destruct Heq as [_ Hwin].
  destruct (iloc_last_snoc LOOKBACK (map row q1) (row w)) as
    (l1 & l2 & _ & Hlast & _); [reflexivity|].
  rewrite Hwin, Hlast, map_app. simpl. intros E.
  apply app_eq_nil in E. destruct E as [_ E]. discriminate.
Qed.

Lemma no_outliers_table_ok (tbl : list LRow) :
  tbl <> [] ->
  no_outliers_table remove_outliers tbl =
  Ok (map (outliers_removed remove_outliers) tbl).
Proof.
  intros Hne. unfold no_outliers_table. rewrite assign_apply_rows by exact Hne.
  apply apply_rows_ok. reflexivity.
Qed.

Lemma target_quantile_table_ok (tbl : list ORow) :
  tbl <> [] ->
  (forall o, In o tbl -> log_prices_lookback_no_outliers o <> []) ->
  target_quantile_table tbl = Ok (map nominal_row tbl).
Proof.
  intros Hrows Hne. unfold target_quantile_table.
  rewrite assign_apply_rows by exact Hrows. apply apply_rows_ok.
  intros o Ho. rewrite compute_quantile_ok by (apply Hne; exact Ho).
  reflexivity.
Qed.

Lemma target_quantile_table_raise (tbl : list ORow) (o : ORow) :
  In o tbl -> log_prices_lookback_no_outliers o = [] ->
  target_quantile_table tbl = Raise InsufficientDataError.
Proof.
  intros Ho Hnil. unfold target_quantile_table.
  rewrite assign_apply_rows by exact (In_not_nil _ _ Ho).
  apply apply_rows_raise with (x := o); [|exact Ho|].
  - intros y e' _ Hy.
    destruct (compute_quantile (log_prices_lookback_no_outliers y) PCT_TARGET)
      as [q|e0] eqn:E; cbn [bind] in Hy; [discriminate Hy|].
    apply compute_quantile_raise in E. destruct E as [_ ->]. congruence.
  - rewrite Hnil. reflexivity.
Qed.

Lemma quantile_table_ok (raw : list Trade) :
  backtest_rows ln raw <> [] ->
  (forall w, In w (backtest_rows ln raw) ->
             remove_outliers (log_prices_lookback w) <> []) ->
  quantile_table ln remove_outliers raw =
  Ok (map (nominal_of remove_outliers) (backtest_rows ln raw)).
Proof.
  unfold backtest_rows in *.
  intros Hrows Hne. unfold quantile_table.
  rewrite no_outliers_table_ok by exact Hrows. cbn [bind].
  rewrite target_quantile_table_ok.
  - rewrite map_map. reflexivity.
  - apply map_not_nil. exact Hrows.
  - intros o Ho. apply in_map_iff in Ho. destruct Ho as (w & <- & Hw).
    cbn [outliers_removed log_prices_lookback_no_outliers].
    apply Hne. exact Hw.
Qed.

Lemma quantile_table_raise (raw : list Trade) (w : LRow) :
  In w (backtest_rows ln raw) -> remove_outliers (log_prices_lookback w) = [] ->
  quantile_table ln remove_outliers raw = Raise InsufficientDataError.
Proof.
  unfold backtest_rows in *.
  intros Hw Hnil. unfold quantile_table.
  rewrite no_outliers_table_ok by exact (In_not_nil _ _ Hw). cbn [bind].
  apply target_quantile_table_raise
    with (o := outliers_removed remove_outliers w).
  - apply in_map. exact Hw.
  - exact Hnil.
Qed.

(** A run in which no row is left for line 61 stops there. *)
Lemma quantile_table_empty (raw : list Trade) :
  backtest_rows ln raw = [] ->
  quantile_table ln remove_outliers raw = Raise ValueError.
Proof.
  unfold backtest_rows, quantile_table. intros ->. reflexivity.
Qed.

Lemma main_unfold (raw : list Trade) :
  main ln exp remove_outliers raw =
  (t <- quantile_table ln remove_outliers raw ;;
   a <- adjusted_table (merge_left t (grouped_stats t)) ;;
   Ok (results exp a)).
Proof.
  unfold main, quantile_table.
  destruct (no_outliers_table remove_outliers
              (backtest_table (lookback_table (trade_filter ln raw))));
    reflexivity.
Qed.

Lemma grouped_stats_group (tbl : list QRow) (c : CollectionKey) :
  In c (group_keys collection_qrow tbl) ->
  filter (fun s => keq (stats_key s) c) (grouped_stats tbl) =
  [stats_of (c, group_rows collection_qrow c tbl)].
Proof.
  intros Hc. unfold grouped_stats, groupby.
  rewrite map_map, filter_map_comm. simpl.
  rewrite filter_keq_NoDup; auto using group_keys_NoDup.
Qed.

Lemma grouped_stats_none (tbl : list QRow) (c : CollectionKey) :
  ~ In c (group_keys collection_qrow tbl) ->
  filter (fun s => keq (stats_key s) c) (grouped_stats tbl) = [].
Proof.
  intros Hc. unfold grouped_stats, groupby.
  rewrite map_map, filter_map_comm. simpl.
  replace (filter _ (group_keys collection_qrow tbl)) with (@nil CollectionKey);
    auto.
  symmetry. apply filter_nil_iff. rewrite Forall_forall. intros k Hk.
  apply keq_false. intros ->. contradiction.
Qed.

(** Every row finds the one row of its collection in the grouped
    table. *)
Lemma merge_left_grouped (tbl : list QRow) :
  merge_left tbl (grouped_stats tbl) =
  map (paired tbl) tbl.
Proof.
  unfold merge_left. apply flat_map_singleton. intros r Hr.
  rewrite grouped_stats_group; auto.
  apply group_keys_In. exists r. auto.
Qed.

Lemma adjusted_table_ok (tbl : list (QRow * Stats)) :
  tbl <> [] ->
  (forall m, In m tbl -> log_prices_lookback_no_outliers (fst m) <> []) ->
  adjusted_table tbl = Ok (map adjusted_row tbl).
Proof.
  intros Hrows Hne. unfold adjusted_table.
  rewrite assign_apply_rows by exact Hrows. apply apply_rows_ok.
  intros m Hm. rewrite compute_quantile_ok by (apply Hne; exact Hm).
  reflexivity.
Qed.

(** The result of a run in which no window is emptied. *)
Lemma main_ok (raw : list Trade) :
  backtest_rows ln raw <> [] ->
  (forall w, In w (backtest_rows ln raw) ->
             remove_outliers (log_prices_lookback w) <> []) ->
  main ln exp remove_outliers raw =
  Ok (results exp
        (map (fun r =>
                adjusted_row
                  (paired
                     (map (nominal_of remove_outliers) (backtest_rows ln raw))
                     r))
           (map (nominal_of remove_outliers) (backtest_rows ln raw)))).
Proof.
  intros Hrows Hne.
  rewrite main_unfold, (quantile_table_ok raw Hrows Hne).
  unfold backtest_rows in *.
  cbn [bind]. rewrite merge_left_grouped, adjusted_table_ok.
  - cbn [bind]. rewrite map_map. reflexivity.
  - apply map_not_nil, map_not_nil. exact Hrows.
  - intros m Hm. apply in_map_iff in Hm. destruct Hm as (r & <- & Hr).
    apply in_map_iff in Hr. destruct Hr as (w & <- & Hw).
    cbn [paired fst nominal_of nominal_row outliers_removed orow
         log_prices_lookback_no_outliers].
    apply Hne. exact Hw.
Qed.

(** A run in which some window is emptied stops with the exception. *)
Lemma main_raise (raw : list Trade) (w : LRow) :
  In w (backtest_rows ln raw) -> remove_outliers (log_prices_lookback w) = [] ->
  main ln exp remove_outliers raw = Raise InsufficientDataError.
Proof.
  unfold backtest_rows in *.
  intros Hw Hnil. rewrite main_unfold.
  rewrite (quantile_table_raise raw w Hw Hnil). reflexivity.
Qed.

(** A run in which no row is left for line 61 stops there with the
    exception of the column assignment. *)
Lemma main_empty (raw : list Trade) :
  backtest_rows ln raw = [] ->
  main ln exp remove_outliers raw = Raise ValueError.
Proof.
  intros Hnil. rewrite main_unfold, (quantile_table_empty raw Hnil).
  reflexivity.
Qed.

Lemma contract_windows (raw : list Trade) :
  (forall x, x <> [] -> remove_outliers x <> []) ->
  forall w, In w (backtest_rows ln raw) ->
            remove_outliers (log_prices_lookback w) <> [].
Proof.
  unfold backtest_rows in *.
  intros Hc w Hw. apply Hc. eapply window_nonempty.
  apply backtest_table_In. exact Hw.
Qed.
End RunFacts.

Lemma count_map {A B} (P : B -> bool) (g : A -> B) l :
  count P (map g l) = count (fun x => P (g x)) l.
Proof. unfold count. rewrite filter_map_comm, length_map. reflexivity. Qed.

Lemma count_ext_on {A} (P P' : A -> bool) l :
  (forall x, In x l -> P x = P' x) -> count P l = count P' l.
Proof.
  intros Hp. unfold count. rewrite (filter_ext_on P P' l Hp). reflexivity.
Qed.

Lemma count_true {A} (l : list A) :
  count (fun _ => true) l = Z.of_nat (length l).
Proof. unfold count. rewrite filter_all; auto. apply Forall_forall. auto. Qed.

Lemma count_le_length {A} (P : A -> bool) l : count P l <= Z.of_nat (length l).
Proof.
  unfold count. apply Nat2Z.inj_le, subseq_length, subseq_filter.
Qed.

Lemma fraction_bounds (a b : Z) :
  0 <= a <= b -> 0 < b -> (0 <= inject_Z a / inject_Z b <= 1)%Q.
Proof.
  intros Hab Hb.
  assert (Hb' : (0 < inject_Z b)%Q)
    by (change 0%Q with (inject_Z 0); rewrite <- Zlt_Qlt; exact Hb).
  assert (Ha' : (0 <= inject_Z a)%Q)
    by (change 0%Q with (inject_Z 0); rewrite <- Zle_Qle; lia).
  assert (Hab' : (inject_Z a <= inject_Z b)%Q) by (rewrite <- Zle_Qle; lia).
  split.
  - apply Qle_shift_div_l; [exact Hb'|lra].
  - apply Qle_shift_div_r; [exact Hb'|lra].
Qed.

Section CollectionFacts.
Variables ln exp : Q -> Q.
Variable remove_outliers : list Q -> list Q.

Lemma horizon_keys (raw : list Trade) (c : CollectionKey) :
  Forall (fun w => collection_lrow w = c) (horizon ln raw c).
Proof. rewrite <- horizon_group. apply group_rows_key. Qed.

Lemma horizon_In (raw : list Trade) (c : CollectionKey) (w : LRow) :
  In w (horizon ln raw c) -> In w (backtest_rows ln raw).
Proof.
  rewrite <- horizon_group. intros Hw. apply group_rows_In in Hw. tauto.
Qed.

Lemma quantile_group (raw : list Trade) (c : CollectionKey) :
  group_rows collection_qrow c
    (map (nominal_of remove_outliers) (backtest_rows ln raw)) =
  map (nominal_of remove_outliers) (horizon ln raw c).
Proof.
  rewrite (group_rows_map collection_lrow collection_qrow) by reflexivity.
  rewrite horizon_group. reflexivity.
Qed.

Lemma paired_horizon (raw : list Trade) (c : CollectionKey) (w : LRow) :
  collection_lrow w = c ->
  paired (map (nominal_of remove_outliers) (backtest_rows ln raw))
         (nominal_of remove_outliers w) =
  (nominal_of remove_outliers w, collection_stats ln remove_outliers raw c).
Proof.
  intros <-. unfold paired, collection_stats.
  change (collection_qrow (nominal_of remove_outliers w))
    with (collection_lrow w).
  rewrite quantile_group. reflexivity.
Qed.

Lemma adjusted_group (raw : list Trade) (c : CollectionKey) :
  group_rows collection_arow c
    (map (fun r =>
            adjusted_row
              (paired (map (nominal_of remove_outliers) (backtest_rows ln raw))
                 r))
       (map (nominal_of remove_outliers) (backtest_rows ln raw))) =
  map (fun w =>
         adjusted_row
           (nominal_of remove_outliers w,
            collection_stats ln remove_outliers raw c))
      (horizon ln raw c).
Proof.
  rewrite (group_rows_map collection_qrow collection_arow) by reflexivity.
  rewrite quantile_group, map_map. apply map_ext_in. intros w Hw.
  rewrite (paired_horizon raw c); [reflexivity|].
  pose proof (horizon_keys raw c) as Hk. rewrite Forall_forall in Hk.
  exact (Hk w Hw).
Qed.

(** Of a run in which no window is emptied, the records of one
    collection: one, made from the last row of its horizon. *)
Lemma results_group (raw : list Trade) (c : CollectionKey) :
  backtest_rows ln raw <> [] ->
  (forall w, In w (backtest_rows ln raw) ->
             remove_outliers (log_prices_lookback w) <> []) ->
  exists out,
    main ln exp remove_outliers raw = Ok out /\
    group_rows collection_estimate c out =
    match rev (horizon ln raw c) with
    | [] => []
    | w :: _ => [estimate_of ln exp remove_outliers raw c w]
    end.
Proof.
  intros Hrows Hne. eexists.
  split; [apply main_ok; [exact Hrows|exact Hne]|].
  unfold results.
  rewrite (group_rows_map collection_arow collection_estimate) by reflexivity.
  rewrite groupby_tail1_group, adjusted_group, <- map_rev.
  destruct (rev (horizon ln raw c)); reflexivity.
Qed.

Lemma grouped_table_ok (raw : list Trade) :
  backtest_rows ln raw <> [] ->
  (forall w, In w (backtest_rows ln raw) ->
             remove_outliers (log_prices_lookback w) <> []) ->
  grouped_table ln remove_outliers raw =
  Ok (grouped_stats (map (nominal_of remove_outliers) (backtest_rows ln raw))).
Proof.
  intros Hrows Hne. unfold grouped_table.
  rewrite quantile_table_ok; [reflexivity|exact Hrows|exact Hne].
Qed.

(** The grouped table has one row for a collection with rows in the
    horizon and none for any other. *)
Lemma grouped_stats_collection (raw : list Trade) (c : CollectionKey) :
  group_rows stats_key c
    (grouped_stats (map (nominal_of remove_outliers) (backtest_rows ln raw))) =
  match horizon ln raw c with
  | [] => []
  | _ :: _ => [collection_stats ln remove_outliers raw c]
  end.
Proof.
  unfold group_rows.
  destruct (horizon ln raw c) as [|w h] eqn:Eh.
  - apply grouped_stats_none. rewrite group_keys_nonempty, quantile_group, Eh.
    simpl. tauto.
  - rewrite grouped_stats_group.
    + unfold collection_stats. rewrite quantile_group. reflexivity.
    + apply group_keys_nonempty. rewrite quantile_group, Eh. discriminate.
Qed.

(** The last row of the horizon is the last row of the working set with
    its window. *)
Lemma horizon_last (raw : list Trade) (c : CollectionKey) pre (t : Row) :
  working_set ln raw c = pre ++ [t] ->
  exists h w,
    horizon ln raw c = h ++ [w] /\ row w = t /\
    log_prices_lookback w = map log_price (iloc_last LOOKBACK (pre ++ [t])).
Proof.
  intros Hws. unfold horizon. rewrite Hws.
  pose proof (create_lookback_rows LOOKBACK (pre ++ [t])) as Hrows.
  destruct (exists_last (l := create_lookback LOOKBACK (pre ++ [t])))
    as (q1 & w & Heq).
  { intros E. rewrite E in Hrows. destruct pre; discriminate. }
  pose proof (create_lookback_at LOOKBACK (pre ++ [t]) q1 w [] eq_refl Heq)
    as [Hsplit Hwin].
  simpl in Hsplit. apply app_inj_tail in Hsplit. destruct Hsplit as [Hpre Ht].
  rewrite Heq.
  destruct (iloc_last_snoc BACKTEST q1 w) as (l1 & l2 & _ & Hlast & _);
    [reflexivity|].
  exists l2, w. rewrite Hlast, Hwin, <- Hpre, <- Ht. auto.
Qed.

Lemma working_set_last (raw : list Trade) (c : CollectionKey) :
  working_set ln raw c <> [] ->
  exists pre t,
    working_set ln raw c = pre ++ [t] /\
    Forall (fun x : Row => block_number x <= block_number t) pre.
Proof.
  intros Hne. destruct (exists_last Hne) as (pre & t & Heq).
  exists pre, t. split; auto.
  pose proof (working_set_sorted ln raw c) as Hs. rewrite Heq in Hs.
  apply StronglySorted_before in Hs. exact Hs.
Qed.

Lemma horizon_nonempty (raw : list Trade) (c : CollectionKey) :
  working_set ln raw c <> [] -> horizon ln raw c <> [].
Proof.
  intros Hne. destruct (exists_last Hne) as (pre & t & Heq).
  destruct (horizon_last raw c pre t Heq) as (h & w & Hh & _).
  rewrite Hh. destruct h; discriminate.
Qed.

(** A collection with a row in the working set leaves a row for
    line 61. *)
Lemma backtest_rows_nonempty (raw : list Trade) (c : CollectionKey) :
  working_set ln raw c <> [] -> backtest_rows ln raw <> [].
Proof.
  intros Hws. pose proof (horizon_nonempty raw c Hws) as Hh.
  destruct (horizon ln raw c) as [|w h] eqn:E; [congruence|].
  apply (In_not_nil w). apply (horizon_In raw c). rewrite E. left.
  reflexivity.
Qed.

Lemma hits_horizon (raw : list Trade) (c : CollectionKey) :
  (forall w, In w (backtest_rows ln raw) ->
             remove_outliers (log_prices_lookback w) <> []) ->
  count price_smaller (map (nominal_of remove_outliers) (horizon ln raw c)) =
  count (hit remove_outliers) (horizon ln raw c).
Proof.
  intros Hne. rewrite count_map. apply count_ext_on. intros w Hw.
  unfold hit, nominal_estimate.
  rewrite compute_quantile_ok by (apply Hne, (horizon_In raw c w Hw)).
  reflexivity.
Qed.
End CollectionFacts.

(** ** Properties of the run *)

Section RunClaims.
Variables ln exp : Q -> Q.
Variable remove_outliers : list Q -> list Q.

Lemma grouped_stats_keys (raw : list Trade) (s : Stats) :
  In s (grouped_stats
          (map (nominal_of remove_outliers) (backtest_rows ln raw))) ->
  working_set ln raw (stats_key s) <> [].
Proof.
  intros Hs.
  assert (Hg : In s (group_rows stats_key (stats_key s)
                       (grouped_stats
                          (map (nominal_of remove_outliers)
                             (backtest_rows ln raw)))))
    by (apply group_rows_In; split; [exact Hs|reflexivity]).
  rewrite grouped_stats_collection in Hg.
  destruct (horizon ln raw (stats_key s)) as [|w h] eqn:Eh; [contradiction|].
  intros Hnil. unfold horizon in Eh. rewrite Hnil in Eh.
  rewrite create_lookback_nil, iloc_last_nil in Eh. discriminate.
Qed.

(** C1: the controller returns the clamped proportional step, which lies
    between the bounds whenever the lower bound is not above the upper
    one.  In a run the grouped table has exactly one row for every
    collection with rows in the working set and none for any other, and
    that row's adjusted quantile is the controller's result on
    [PCT_TARGET], [PCT_TARGET], the row's observed hit rate, [SPEED],
    [PCT_TARGET_MIN] and [PCT_TARGET_MAX]; it lies between the two
    bounds. *)
Theorem controller_step_per_collection (raw : list Trade) (c : CollectionKey)
  (nominal_target desired_target observed_hit_rate : Q)
  (speed min_bound max_bound : Q) :
  (min_bound <= max_bound)%Q ->
  (forall x, x <> [] -> remove_outliers x <> []) ->
  working_set ln raw c <> [] ->
  (compute_new_quantile nominal_target desired_target observed_hit_rate
     speed min_bound max_bound =
   clamp (nominal_target + speed * (desired_target - observed_hit_rate))
     min_bound max_bound /\
   (min_bound <=
    compute_new_quantile nominal_target desired_target observed_hit_rate
      speed min_bound max_bound <= max_bound)%Q) /\
  exists g s,
    grouped_table ln remove_outliers raw = Ok g /\
    group_rows stats_key c g = [s] /\
    Forall (fun s' => working_set ln raw (stats_key s') <> []) g /\
    quantile_adj s =
    compute_new_quantile PCT_TARGET PCT_TARGET (quantile_obs s) SPEED
      PCT_TARGET_MIN PCT_TARGET_MAX /\
    (PCT_TARGET_MIN <= quantile_adj s <= PCT_TARGET_MAX)%Q.
Proof.
  intros Hb Hc Hws. split.
  - split; [reflexivity|]. apply clamp_bounds. exact Hb.
  - pose proof (contract_windows ln remove_outliers raw Hc) as Hne.
    pose proof (backtest_rows_nonempty ln raw c Hws) as Hrows.
    eexists. exists (collection_stats ln remove_outliers raw c).
    split; [apply grouped_table_ok; [exact Hrows|exact Hne]|].
    split; [|split; [|split]].
    + rewrite grouped_stats_collection.
      pose proof (horizon_nonempty ln raw c Hws) as Hh.
      destruct (horizon ln raw c); [congruence|reflexivity].
    + rewrite Forall_forall. intros s' Hs'.
      exact (grouped_stats_keys raw s' Hs').
    + reflexivity.
    + apply clamp_bounds. unfold PCT_TARGET_MIN, PCT_TARGET_MAX. lra.
Qed.

(** C2: when the outlier filter never empties a window, the run ends
    normally, and for every collection with rows in the working set it
    emits exactly one record.  The record is that of the last row of the
    collection's working set, whose block number no other row of the
    collection exceeds; its window holds the log-prices of the last
    [LOOKBACK] rows of the working set; and its price is [exp] of the
    quantile of the outlier-filtered window at the adjusted quantile of
    the collection's row in the grouped table. *)
Theorem one_estimate_per_collection (raw : list Trade) (c : CollectionKey) :
  (forall x, x <> [] -> remove_outliers x <> []) ->
  working_set ln raw c <> [] ->
  exists out e pre g,
    main ln exp remove_outliers raw = Ok out /\
    group_rows collection_estimate c out = [e] /\
    working_set ln raw c = pre ++ [row e] /\
    Forall (fun t : Row => block_number t <= block_number e) pre /\
    log_prices_lookback e =
      map log_price (iloc_last LOOKBACK (working_set ln raw c)) /\
    log_prices_lookback_no_outliers e =
      remove_outliers (log_prices_lookback e) /\
    grouped_table ln remove_outliers raw = Ok g /\
    group_rows stats_key c g = [stats e] /\
    compute_quantile (log_prices_lookback_no_outliers e)
      (quantile_adj (stats e)) = Ok (log_price_adj e) /\
    floor_price_est e = exp (log_price_adj e).
Proof.
  intros Hc Hws.
  pose proof (contract_windows ln remove_outliers raw Hc) as Hne.
  pose proof (backtest_rows_nonempty ln raw c Hws) as Hrows.
  destruct (results_group ln exp remove_outliers raw c Hrows Hne)
    as (out & Hmain & Hout).
  destruct (working_set_last ln raw c Hws) as (pre & t & Hlast & Hpre).
  destruct (horizon_last ln raw c pre t Hlast) as (h & w & Hh & Hrow & Hwin).
  rewrite Hh, rev_app_distr in Hout. cbn [rev app] in Hout.
  exists out, (estimate_of ln exp remove_outliers raw c w), pre.
  eexists. split; [exact Hmain|]. split; [exact Hout|].
  split; [rewrite Hlast, <- Hrow; reflexivity|].
  split; [rewrite <- Hrow in Hpre; exact Hpre|].
  split; [rewrite Hlast; exact Hwin|].
  split; [reflexivity|].
  split; [apply grouped_table_ok; [exact Hrows|exact Hne]|].
  split; [|split; [|reflexivity]].
  - rewrite grouped_stats_collection, Hh. destruct h; reflexivity.
  - unfold estimate_of.
    cbn [arow qrow orow lrow log_price_adj stats adjusted_row fst snd
         log_prices_lookback_no_outliers nominal_of nominal_row
         outliers_removed].
    apply compute_quantile_ok. apply Hne.
    apply (horizon_In ln raw c). rewrite Hh. apply in_or_app. right. left.
    reflexivity.
Qed.


(** C5: when the outlier filter never empties a window, the observed hit
    rate in the grouped-table row of a collection is the number of rows
    of the collection's backtest horizon whose own log-price is at or
    under their own nominal estimate, divided by the number of rows of
    the horizon, which is not zero; it lies between 0 and 1. *)
Theorem observed_hit_rate_fraction (raw : list Trade) (c : CollectionKey) :
  (forall x, x <> [] -> remove_outliers x <> []) ->
  working_set ln raw c <> [] ->
  exists g s,
    grouped_table ln remove_outliers raw = Ok g /\
    group_rows stats_key c g = [s] /\
    horizon ln raw c <> [] /\
    quantile_obs s =
      (inject_Z (count (hit remove_outliers) (horizon ln raw c)) /
       inject_Z (Z.of_nat (length (horizon ln raw c))))%Q /\
    (0 <= quantile_obs s <= 1)%Q.
Proof.
  intros Hc Hws.
  pose proof (contract_windows ln remove_outliers raw Hc) as Hne.
  pose proof (horizon_nonempty ln raw c Hws) as Hh.
  pose proof (backtest_rows_nonempty ln raw c Hws) as Hrows.
  eexists. exists (collection_stats ln remove_outliers raw c).
  split; [apply grouped_table_ok; [exact Hrows|exact Hne]|].
  split; [|split; [exact Hh|]].
  - rewrite grouped_stats_collection.
    destruct (horizon ln raw c); [congruence|reflexivity].
  - assert (Hobs : quantile_obs (collection_stats ln remove_outliers raw c) =
      (inject_Z (count (hit remove_outliers) (horizon ln raw c)) /
       inject_Z (Z.of_nat (length (horizon ln raw c))))%Q).
    { unfold collection_stats, stats_of. cbn [quantile_obs snd].
      rewrite (hits_horizon ln remove_outliers raw c Hne).
      rewrite count_true, length_map. reflexivity. }
    split; [exact Hobs|]. rewrite Hobs. apply fraction_bounds.
    + split; [apply count_nonneg|apply count_le_length].
    + destruct (horizon ln raw c); [congruence|simpl length; lia].
Qed.
End RunClaims.

(** ** Sample runs *)

Lemma groupby_tail1_NoDup {A K} `{Order K} (key : A -> K) (l : list A) :
  NoDup (map key l) -> groupby_tail1 key l = l.
Proof.
  induction l as [|x l IH]; simpl; intros Hnd; auto.
  inversion Hnd; subst.
  destruct (existsb (fun r' => keq (key r') (key x)) l) eqn:Ex.
  - apply existsb_key in Ex. destruct Ex as (r & Hr & E).
    exfalso. apply H2. rewrite <- E. apply in_map. exact Hr.
  - rewrite IH by assumption. reflexivity.
Qed.

Lemma log_price_well_defined_witness :
  (0 < price_eth sample_survivor)%Q /\
  np_log ln_sample (price_eth sample_survivor) =
  Finite (log_price sample_survivor).
Proof.
  apply (log_price_well_defined ln_sample sample_trades sample_survivor).
  vm_compute. tauto.
Defined.

Lemma sanitize_twap_buffer_witness :
  exists bid, twap_bid sample_survivor = Some bid /\
              (bid * TWAP_Buffer_PCT <= price_eth sample_survivor)%Q.
Proof.
  apply (sanitize_twap_buffer ln_sample sample_trades sample_survivor).
  left. vm_compute. tauto.
Defined.

Lemma trade_filter_latest_per_token_witness :
  group_rows token_row (token_of sample_survivor)
    (trade_filter ln_sample sample_trades) = [sample_survivor] /\
  exists l1 l2,
    group_rows token_row (token_of sample_survivor)
      (sanitize ln_sample sample_trades) = l1 ++ sample_survivor :: l2 /\
    Forall (fun x : Row => block_number x <= block_number sample_survivor) l1 /\
    Forall (fun x : Row => block_number x < block_number sample_survivor) l2.
Proof.
  apply (trade_filter_latest_per_token ln_sample sample_trades
           sample_survivor).
  vm_compute. tauto.
Defined.

(** C6, as the claim states it, fails: the input holds two trades of one
    token; the later one, of block 12, is priced under the buffer of its
    [twap-bid] and line 27 drops it before the deduplication, so the
    trade filter keeps the trade of block 10 although an input of the
    same token has a higher block number. *)
Lemma trade_filter_keeps_older_trade :
  (exists r t,
     trade_filter ln_sample stale_token = [r] /\
     In t stale_token /\
     token_of t = token_of r /\
     block_number r = 10 /\ block_number t = 12 /\
     block_number r < block_number t) /\
  group_rows token_row (1, ("0xA"%string, 1))
    (sanitize ln_sample stale_token) =
  trade_filter ln_sample stale_token.
Proof.
  split.
  - exists (mkRow (mkTrade 1 "0xA" 1 10 (3 # 1) (Some 1%Q))
              (ln_sample (3 # 1))),
      (mkTrade 1 "0xA" 1 12 (1 # 1) (Some 100%Q)).
    split; [vm_compute; reflexivity|].
    split; [right; left; reflexivity|].
    split; [reflexivity|]. split; [reflexivity|]. split; [reflexivity|].
    reflexivity.
  - vm_compute. reflexivity.
Qed.

Lemma lookback_window_causal_witness :
  exists pre ts post,
    working_set ln_sample sample_trades (collection_of sample_window) =
      pre ++ ts ++ row sample_window :: post /\
    log_prices_lookback sample_window =
      map log_price (ts ++ [row sample_window]).
Proof.
  destruct (lookback_window_causal ln_sample sample_trades sample_window)
    as (pre & ts & post & Hws & Hwin & _).
  - vm_compute. tauto.
  - exists pre, ts, post. split; assumption.
Defined.

Lemma compute_quantile_monotone_witness :
  exists q1 q2,
    compute_quantile [3 # 1; 1 # 1; 2 # 1] (1 # 4) = Ok q1 /\
    compute_quantile [3 # 1; 1 # 1; 2 # 1] (3 # 4) = Ok q2 /\
    (q1 <= q2)%Q.
Proof.
  apply (compute_quantile_monotone [3 # 1; 1 # 1; 2 # 1] (1 # 4) (3 # 4)).
  - discriminate.
  - lra.
  - lra.
  - lra.
Defined.

Lemma controller_step_per_collection_witness :
  (PCT_TARGET_MIN <=
   compute_new_quantile PCT_TARGET PCT_TARGET 1 SPEED
     PCT_TARGET_MIN PCT_TARGET_MAX <= PCT_TARGET_MAX)%Q /\
  exists g s,
    grouped_table ln_sample no_trim sample_trades = Ok g /\
    group_rows stats_key (1, "0xB"%string) g = [s] /\
    (PCT_TARGET_MIN <= quantile_adj s <= PCT_TARGET_MAX)%Q.
Proof.
  destruct (controller_step_per_collection ln_sample no_trim sample_trades
              (1, "0xB"%string) PCT_TARGET PCT_TARGET 1 SPEED
              PCT_TARGET_MIN PCT_TARGET_MAX)
    as [[_ Hb] (g & s & Hg & Hs & _ & _ & Hadj)].
  - unfold PCT_TARGET_MIN, PCT_TARGET_MAX. lra.
  - intros x Hx. exact Hx.
  - vm_compute. discriminate.
  - split; [exact Hb|]. exists g, s.
    split; [exact Hg|split; [exact Hs|exact Hadj]].
Defined.

Lemma one_estimate_per_collection_witness :
  exists out e,
    main ln_sample exp_sample no_trim sample_trades = Ok out /\
    group_rows collection_estimate (1, "0xA"%string) out = [e] /\
    floor_price_est e = exp_sample (log_price_adj e).
Proof.
  destruct (one_estimate_per_collection ln_sample exp_sample no_trim
              sample_trades (1, "0xA"%string))
    as (out & e & pre & g & Hmain & Hout & _ & _ & _ & _ & _ & _ & _ & Hfl).
  - intros x Hx. exact Hx.
  - vm_compute. discriminate.
  - exists out, e. split; [exact Hmain|split; [exact Hout|exact Hfl]].
Defined.

Lemma observed_hit_rate_fraction_witness :
  exists g s,
    grouped_table ln_sample no_trim sample_trades = Ok g /\
    group_rows stats_key (1, "0xA"%string) g = [s] /\
    (0 <= quantile_obs s <= 1)%Q.
Proof.
  destruct (observed_hit_rate_fraction ln_sample no_trim sample_trades
              (1, "0xA"%string))
    as (g & s & Hg & Hs & _ & _ & Hb).
  - intros x Hx. exact Hx.
  - vm_compute. discriminate.
  - exists g, s. split; [exact Hg|split; [exact Hs|exact Hb]].
Defined.



(** * Further properties of the script *)

(** ** Lists *)

Lemma sort_by_id {A} (leb : A -> A -> bool) (l : list A) :
  sorted_by leb l -> sort_by leb l = l.
Proof.
  induction 1 as [|x l Hs IH Hx]; simpl; auto.
  rewrite IH. destruct l as [|y l]; simpl; auto.
  inversion Hx; subst. rewrite H1. reflexivity.
Qed.

Lemma subseq_map {A B} (f : A -> B) (l1 l2 : list A) :
  subseq l1 l2 -> subseq (map f l1) (map f l2).
Proof.
  induction 1; simpl;
    [apply subseq_nil | apply subseq_skip | apply subseq_keep]; assumption.
Qed.

Lemma subseq_NoDup {A} (l1 l2 : list A) :
  subseq l1 l2 -> NoDup l2 -> NoDup l1.
Proof.
  induction 1 as [|x l1 l2 Hs IH|x l1 l2 Hs IH]; intros Hnd; auto.
  - inversion Hnd; subst. auto.
  - inversion Hnd; subst. constructor; auto.
    intros Hin. apply H1. eapply subseq_In; eassumption.
Qed.

Lemma StronglySorted_app {A} (R : A -> A -> Prop) (l1 l2 : list A) :
  StronglySorted R l1 -> StronglySorted R l2 ->
  (forall x y, In x l1 -> In y l2 -> R x y) ->
  StronglySorted R (l1 ++ l2).
Proof.
  induction 1 as [|x l1 Hs IH Hx]; simpl; intros H2 Hc; auto.
  constructor.
  - apply IH; auto.
  - apply Forall_app. split; auto.
    rewrite Forall_forall. intros y Hy. apply Hc; auto.
Qed.

Lemma StronglySorted_map {A B} (R : A -> A -> Prop) (R' : B -> B -> Prop)
  (g : A -> B) (l : list A) :
  (forall a b, R a b -> R' (g a) (g b)) ->
  StronglySorted R l -> StronglySorted R' (map g l).
Proof.
  intros Hg. induction 1 as [|x l Hs IH Hx]; simpl; constructor; auto.
  rewrite Forall_forall in *. intros y Hy.
  apply in_map_iff in Hy. destruct Hy as (a & <- & Ha). auto.
Qed.

Lemma StronglySorted_pair {A} (R : A -> A -> Prop) pre a mid b post :
  StronglySorted R (pre ++ a :: mid ++ b :: post) -> R a b.
Proof.
  induction pre as [|x pre IH]; simpl; intros Hs; inversion Hs; subst; auto.
  rewrite Forall_forall in H2. apply H2. apply in_or_app. right. left.
  reflexivity.
Qed.

Lemma NoDup_pair {A B} (f : A -> B) pre a mid b post :
  NoDup (map f (pre ++ a :: mid ++ b :: post)) -> f a <> f b.
Proof.
  rewrite map_app. simpl. rewrite map_app. simpl. intros Hnd E.
  apply NoDup_remove_2 in Hnd. apply Hnd.
  apply in_or_app. right. apply in_or_app. right. left. symmetry. exact E.
Qed.

(** ** Groups *)

Section TailFacts.
Context {A K : Type} `{Order K}.
Variable key : A -> K.

Lemma groupby_tail1_subseq l : subseq (groupby_tail1 key l) l.
Proof.
  induction l as [|x l IH]; simpl; [apply subseq_nil|].
  destruct (existsb (fun r' => keq (key r') (key x)) l);
    [apply subseq_skip | apply subseq_keep]; exact IH.
Qed.

(** After [tail(1)] no two rows have the same key. *)
Lemma groupby_tail1_keys_NoDup l : NoDup (map key (groupby_tail1 key l)).
Proof.
  induction l as [|x l IH]; simpl; [constructor|].
  destruct (existsb (fun r' => keq (key r') (key x)) l) eqn:Ex; auto.
  simpl. constructor; auto.
  rewrite in_map_iff. intros (r & E & Hr).
  apply groupby_tail1_In in Hr.
  assert (C : existsb (fun r' => keq (key r') (key x)) l = true)
    by (apply existsb_key; exists r; auto).
  congruence.
Qed.

(** Rows in key order with no key twice are in strict key order. *)
Lemma sorted_NoDup_strict l :
  StronglySorted (fun a b => kle (key a) (key b)) l ->
  NoDup (map key l) ->
  StronglySorted (fun a b => cmp (key a) (key b) = Lt) l.
Proof.
  induction 1 as [|x l Hs IH Hx]; simpl; intros Hnd; constructor;
    inversion Hnd; subst; auto.
  rewrite Forall_forall in *. intros y Hy.
  destruct (proj1 (kle_cases _ _) (Hx y Hy)) as [Hlt|E]; auto.
  exfalso. apply H2. rewrite E. apply in_map. exact Hy.
Qed.

(** A filter that does not separate rows of one key commutes with
    [tail(1)]. *)
Lemma filter_groupby_tail1 (P : A -> bool) l :
  (forall a b, key a = key b -> P a = P b) ->
  filter P (groupby_tail1 key l) = groupby_tail1 key (filter P l).
Proof.
  intros HP. induction l as [|x l IH]; simpl; auto.
  destruct (P x) eqn:Px.
  - simpl.
    assert (Ex : existsb (fun r' => keq (key r') (key x)) (filter P l) =
                 existsb (fun r' => keq (key r') (key x)) l).
    { apply eq_true_iff_eq. rewrite !existsb_key. split.
      - intros (r & Hr & E). apply filter_In in Hr. exists r. tauto.
      - intros (r & Hr & E). exists r. split; auto.
        apply filter_In. split; auto. rewrite (HP r x E). exact Px. }
    rewrite Ex.
    destruct (existsb (fun r' => keq (key r') (key x)) l); simpl;
      rewrite ?Px, IH; reflexivity.
  - destruct (existsb (fun r' => keq (key r') (key x)) l); simpl;
      rewrite ?Px, IH; reflexivity.
Qed.
End TailFacts.

Lemma kle_refl {K} `{Order K} (a : K) : kle a a.
Proof. unfold kle. rewrite cmp_refl. discriminate. Qed.

Lemma group_keys_sorted {A K} `{Order K} (key : A -> K) (l : list A) :
  StronglySorted kle (group_keys key l).
Proof. unfold group_keys. apply (sort_values_sorted (fun k : K => k)). Qed.

Lemma concat_blocks_sorted {B K} `{Order K} (key' : B -> K)
  (F : K -> list B) (ks : list K) :
  (forall k, Forall (fun b => key' b = k) (F k)) ->
  StronglySorted kle ks ->
  StronglySorted (fun a b => kle (key' a) (key' b)) (concat (map F ks)).
Proof.
  intros HF. induction 1 as [|k ks Hs IH Hk]; simpl; [constructor|].
  apply StronglySorted_app; auto.
  - pose proof (HF k) as Hb. induction Hb as [|b l Hb Hl IHb]; constructor; auto.
    rewrite Forall_forall in *. intros y Hy. rewrite Hb, (Hl y Hy).
    apply kle_refl.
  - intros x y Hx Hy. apply in_concat in Hy. destruct Hy as (g & Hg & Hy).
    apply in_map_iff in Hg. destruct Hg as (k' & <- & Hk').
    pose proof (HF k) as H1. pose proof (HF k') as H2.
    rewrite Forall_forall in H1, H2, Hk.
    rewrite (H1 x Hx), (H2 y Hy). apply Hk. exact Hk'.
Qed.

(** The table that a group-wise step returns is in group-key order. *)
Lemma groupby_apply_sorted {A B K} `{Order K} (key : A -> K) (key' : B -> K)
  (f : list A -> list B) (l : list A) :
  (forall k, Forall (fun b => key' b = k) (f (group_rows key k l))) ->
  StronglySorted (fun a b => kle (key' a) (key' b)) (groupby_apply key f l).
Proof.
  intros Hf. unfold groupby_apply, groupby. rewrite map_map. simpl.
  apply (concat_blocks_sorted key' (fun k => f (group_rows key k l))); auto.
  apply group_keys_sorted.
Qed.

(** ** The steps of the trade filter *)

Section FilterSteps.
Variable ln : Q -> Q.

Lemma keep_latest_per_token_sorted (tbl : list Row) :
  sorted_by
    (fun a b : Row =>
       kleb (chain_id a, (contract_address a, (token_id a, block_number a)))
            (chain_id b, (contract_address b, (token_id b, block_number b))))
    (keep_latest_per_token tbl).
Proof.
  unfold keep_latest_per_token, sorted_by.
  eapply StronglySorted_subseq; [apply groupby_tail1_subseq|].
  unfold sort_values.
  apply (sort_by_sorted
           (key_leb (fun r : Row =>
              (chain_id r,
               (contract_address r, (token_id r, block_number r)))))).
  - apply key_leb_total.
  - apply key_leb_trans.
Qed.

(** X2: the deduplication of lines 30-31 is idempotent: on its own
    result it changes nothing, neither the rows nor their order. *)
Theorem keep_latest_per_token_idempotent (tbl : list Row) :
  keep_latest_per_token (keep_latest_per_token tbl) =
  keep_latest_per_token tbl.
Proof.
  unfold keep_latest_per_token at 1. unfold sort_values.
  rewrite sort_by_id by apply keep_latest_per_token_sorted.
  apply groupby_tail1_NoDup.
  unfold keep_latest_per_token. apply groupby_tail1_keys_NoDup.
Qed.

Lemma ranked_bound (tbl : list Row) (r : Row) (rho : Z) :
  In (r, rho) (groupby_rank_first_desc collection_row block_row tbl) ->
  1 <= rho <=
  Z.of_nat (length (group_rows collection_row (collection_row r) tbl)).
Proof.
  intros Hin.
  assert (Hg : In (r, rho)
                 (filter (fun rr : Row * Z =>
                            keq (collection_row (fst rr)) (collection_row r))
                    (groupby_rank_first_desc collection_row block_row tbl))).
  { apply filter_In. split; [exact Hin|]. apply keq_refl. }
  unfold groupby_rank_first_desc in Hg.
  rewrite (rank_from_group collection_row block_row) in Hg.
  apply (ranks_bounds block_row _ r rho Hg).
Qed.

Lemma rank_cap_keeps_all (tbl : list Row) :
  (forall r rho,
     In (r, rho) (groupby_rank_first_desc collection_row block_row tbl) ->
     rho < cap_bound) ->
  rank_cap tbl = tbl.
Proof.
  intros Hall. unfold rank_cap. rewrite filter_all.
  - apply rank_first_desc_from_fst.
  - rewrite Forall_forall. intros [r rho] Hin. simpl.
    apply Z.ltb_lt. exact (Hall r rho Hin).
Qed.

(** X3: the cap of lines 37-42 leaves alone a table in which every
    collection has fewer than [BACKTEST * 2 + LOOKBACK * 2] rows: no row
    is dropped and the order stays. *)
Theorem rank_cap_small_collections (tbl : list Row) :
  (forall c, Z.of_nat (length (group_rows collection_row c tbl)) <
             BACKTEST * 2 + LOOKBACK * 2) ->
  rank_cap tbl = tbl.
Proof.
  intros Hsmall. apply rank_cap_keeps_all. intros r rho Hin.
  pose proof (ranked_bound tbl r rho Hin) as Hb.
  pose proof (Hsmall (collection_row r)) as Hc.
  unfold cap_bound. lia.
Qed.

(** X4: the cap is idempotent: applied to its own result it drops
    nothing more. *)
Theorem rank_cap_idempotent (tbl : list Row) :
  rank_cap (rank_cap tbl) = rank_cap tbl.
Proof.
  apply rank_cap_keeps_all. intros r rho Hin.
  pose proof (ranked_bound _ r rho Hin) as Hb.
  rewrite rank_cap_group, length_map in Hb.
  rewrite ranks_below in Hb by (unfold cap_bound; cbv; discriminate).
  assert (0 < cap_bound) by (unfold cap_bound; cbv; reflexivity).
  lia.
Qed.

Lemma collection_of_order (a b : Row) :
  kle (chain_id a, (contract_address a, block_number a))
      (chain_id b, (contract_address b, block_number b)) ->
  kle (collection_of a) (collection_of b).
Proof.
  unfold kle, collection_of. simpl. unfold lex_cmp. simpl.
  unfold lex_cmp. simpl.
  destruct (Z.compare (chain_id a) (chain_id b)); auto.
  destruct (String.compare (contract_address a) (contract_address b));
    auto; discriminate.
Qed.

Lemma trade_filter_tokens_NoDup (raw : list Trade) :
  NoDup (map token_row (trade_filter ln raw)).
Proof.
  apply (subseq_NoDup _ (map token_row (deduplicated ln raw))).
  - apply subseq_map. unfold trade_filter. apply rank_cap_subseq.
  - unfold deduplicated, sort_by_block.
    eapply Permutation_NoDup;
      [apply Permutation_map, Permutation_sym, sort_values_perm|].
    unfold keep_latest_per_token. apply groupby_tail1_keys_NoDup.
Qed.

(** X5: the table that [main] hands to [create_lookback] is in order:
    of two of its rows the earlier one has the smaller or the same
    collection key, within one collection the earlier row has the
    smaller or the same block number, and no two rows are of the same
    token. *)
Theorem trade_filter_in_order (raw : list Trade)
  (pre : list Row) (a : Row) (mid : list Row) (b : Row) (post : list Row) :
  trade_filter ln raw = pre ++ a :: mid ++ b :: post ->
  kle (collection_of a) (collection_of b) /\
  (collection_of a = collection_of b -> block_number a <= block_number b) /\
  token_of a <> token_of b.
Proof.
  intros Heq.
  assert (Hs : StronglySorted
                 (fun a b : Row =>
                    kle (chain_id a, (contract_address a, block_number a))
                        (chain_id b, (contract_address b, block_number b)))
                 (trade_filter ln raw)).
  { eapply StronglySorted_subseq; [|apply (deduplicated_sorted ln raw)].
    unfold trade_filter. apply rank_cap_subseq. }
  pose proof (trade_filter_tokens_NoDup raw) as Hnd.
  rewrite Heq in Hs, Hnd.
  apply StronglySorted_pair in Hs. apply NoDup_pair in Hnd.
  split; [apply collection_of_order; exact Hs|].
  split; [|exact Hnd].
  intros E. apply collection_order; assumption.
Qed.
End FilterSteps.

(** ** The cap and records of the same block *)

Section TieFacts.
Variable ln : Q -> Q.

Lemma sorted_by_same_key (l : list Row) (k : Z * (string * Z)) :
  Forall (fun x : Row =>
            (chain_id x, (contract_address x, block_number x)) = k) l ->
  sorted_by
    (fun a b : Row =>
       kleb (chain_id a, (contract_address a, block_number a))
            (chain_id b, (contract_address b, block_number b))) l.
Proof.
  intros Hall. unfold sorted_by. induction l as [|x l IH].
  - constructor.
  - inversion Hall as [|? ? Hx Hl]; subst. constructor; [apply IH; exact Hl|].
    rewrite Forall_forall in Hl |- *. intros y Hy.
    rewrite (Hl y Hy). apply kleb_true, kle_refl.
Qed.

(** Rows of the deduplicated table that agree on chain, contract and
    block stand as line 30 sorted them: in ascending order of the token
    id, no two of the same token. *)
Lemma deduplicated_ties (raw : list Trade) (pre : list Row) (a : Row)
  (mid : list Row) (b : Row) (post : list Row) :
  deduplicated ln raw = pre ++ a :: mid ++ b :: post ->
  collection_of a = collection_of b ->
  block_number a = block_number b ->
  token_id a < token_id b.
Proof.
  intros Heq Hc Hb.
  set (key3 := fun r : Row =>
                 (chain_id r, (contract_address r, block_number r))).
  set (P := fun x : Row => keq (key3 x) (key3 a)).
  set (K := keep_latest_per_token (sanitize ln raw)).
  assert (Hkey : key3 b = key3 a).
  { unfold key3. unfold collection_of in Hc.
    injection Hc as Hc1 Hc2. rewrite Hc1, Hc2, Hb. reflexivity. }
  assert (HD : filter P (deduplicated ln raw) = filter P K).
  { unfold deduplicated, sort_by_block. fold key3. fold K.
    rewrite filter_sort_values. unfold sort_values.
    apply sort_by_id. apply (sorted_by_same_key _ (key3 a)).
    rewrite Forall_forall. intros x Hx. apply filter_In in Hx.
    destruct Hx as [_ Hx]. apply keq_true in Hx. exact Hx. }
  rewrite Heq in HD. rewrite filter_app in HD. cbn [filter] in HD.
  rewrite filter_app in HD. cbn [filter] in HD.
  assert (Pa : P a = true) by apply keq_refl.
  assert (Pb : P b = true) by (apply keq_true; exact Hkey).
  rewrite Pa, Pb in HD.
  assert (Hs : sorted_by
            (fun x y : Row =>
               kleb (chain_id x, (contract_address x,
                                  (token_id x, block_number x)))
                    (chain_id y, (contract_address y,
                                  (token_id y, block_number y))))
            (filter P K)).
  { unfold sorted_by.
    eapply StronglySorted_subseq; [apply subseq_filter|].
    apply keep_latest_per_token_sorted. }
  assert (Hn : NoDup (map token_row (filter P K))).
  { eapply subseq_NoDup; [apply subseq_map, subseq_filter|].
    apply groupby_tail1_keys_NoDup. }
  rewrite <- HD in Hs, Hn.
  apply StronglySorted_pair in Hs. apply NoDup_pair in Hn.
  apply kleb_true in Hs.
  unfold collection_of in Hc. injection Hc as Hc1 Hc2.
  rewrite Hc1, Hc2 in Hs. rewrite !kle_pair in Hs.
  rewrite Hb in Hs.
  assert (Hle : token_id a <= token_id b).
  { destruct (Z.compare_spec (token_id a) (token_id b)) as [E|E|E]; try lia.
    exfalso. apply Hs. change (cmp (token_id a, block_number b)
                                   (token_id b, block_number b))
      with (lex_cmp (token_id a, block_number b) (token_id b, block_number b)).
    unfold lex_cmp. cbn [fst snd].
    change (cmp (token_id a) (token_id b))
      with (Z.compare (token_id a) (token_id b)).
    apply Z.compare_gt_iff in E. rewrite E. reflexivity. }
  assert (Hne : token_id a <> token_id b).
  { intros E. apply Hn. unfold token_row, token_of.
    rewrite Hc1, Hc2, E. reflexivity. }
  lia.
Qed.
End TieFacts.

Lemma subseq_cons_split {A} (a : A) (l1 l : list A) :
  subseq (a :: l1) l -> exists pre post, l = pre ++ a :: post /\ subseq l1 post.
Proof.
  intros Hs. remember (a :: l1) as m eqn:Em. revert a l1 Em.
  induction Hs as [|x m l Hs IH|x m l Hs IH]; intros a l1 Em.
  - discriminate Em.
  - destruct (IH a l1 Em) as (pre & post & -> & Hp).
    exists (x :: pre), post. split; [reflexivity|exact Hp].
  - injection Em as -> ->. exists [], l. split; [reflexivity|exact Hs].
Qed.

Lemma subseq_app_split {A} (l1 : list A) (a : A) (l2 l : list A) :
  subseq (l1 ++ a :: l2) l ->
  exists pre post, l = pre ++ a :: post /\ subseq l2 post.
Proof.
  revert l. induction l1 as [|x l1 IH]; intros l Hs.
  - apply subseq_cons_split. exact Hs.
  - cbn [app] in Hs. apply subseq_cons_split in Hs.
    destruct Hs as (pre & post & -> & Hs).
    destruct (IH post Hs) as (pre' & post' & -> & Hp).
    exists (pre ++ x :: pre'), post'. split; [|exact Hp].
    rewrite <- app_assoc. reflexivity.
Qed.

Lemma subseq_two_split {A} (l1 : list A) (a : A) (l2 : list A) (b : A)
  (l3 l : list A) :
  subseq (l1 ++ a :: l2 ++ b :: l3) l ->
  exists pre mid post, l = pre ++ a :: mid ++ b :: post.
Proof.
  intros Hs. apply subseq_app_split in Hs.
  destruct Hs as (pre & post & -> & Hs).
  apply subseq_app_split in Hs. destruct Hs as (mid & post' & -> & _).
  exists pre, mid, post'. reflexivity.
Qed.

Section CapTies.
Variable ln : Q -> Q.

(** C4, as the code has it: of the sanitized and deduplicated records of
    a collection the working set keeps, in table order, the
    [2*(BACKTEST+LOOKBACK) - 1] most recent by block number, or all of
    them when there are fewer.  A record that is kept is at least as
    recent as one that is dropped; when the two have the same block
    number the kept one comes first in the table, where line 30 put the
    records in the order of their token ids and not of the input: on a
    table whose integer columns are read as integers the kept record has
    the smaller token id. *)
Theorem working_set_cap (raw : list Trade) (c : CollectionKey) :
  let G := group_rows collection_row c (deduplicated ln raw) in
  let R := group_rows collection_row c (trade_filter ln raw) in
  subseq R G /\
  length R = Nat.min (length G) (Z.to_nat (2 * (BACKTEST + LOOKBACK) - 1)) /\
  forall r r' : Row, In r R -> In r' G -> ~ In r' R ->
    block_number r' <= block_number r /\
    (block_number r' = block_number r ->
     (exists l1 l2 l3, G = l1 ++ r :: l2 ++ r' :: l3) /\
     (integer_columns raw = true -> token_id r < token_id r')).
Proof.
  intros G R.
  assert (HR : R = map fst (filter (fun rr => snd rr <? cap_bound)
                              (ranks block_row G))).
  { unfold R, trade_filter. apply rank_cap_group. }
  assert (Hsub : subseq R G).
  { unfold R, G, trade_filter. apply filter_subseq, rank_cap_subseq. }
  split; [exact Hsub|]. split; [apply working_set_length|].
  intros r r' Hr Hr' Hnot.
  assert (HrG : In r G) by exact (subseq_In _ _ _ Hsub Hr).
  assert (Hord : block_number r' <= block_number r /\
                 (block_number r' = block_number r ->
                  exists l1 l2 l3, G = l1 ++ r :: l2 ++ r' :: l3)).
  { rewrite HR in Hr, Hnot. apply in_map_iff in Hr.
    destruct Hr as ([r0 rho] & E & Hin). cbn [fst] in E. subst r0.
    apply filter_In in Hin. destruct Hin as [Hin Hrho]. cbn [snd] in Hrho.
    apply Z.ltb_lt in Hrho.
    rewrite <- (ranks_fst block_row G) in Hr'. apply in_map_iff in Hr'.
    destruct Hr' as ([r0 rho'] & E & Hin'). cbn [fst] in E. subst r0.
    assert (Hrho' : cap_bound <= rho').
    { destruct (Z.ltb_spec rho' cap_bound) as [Hlt|Hge]; [|exact Hge].
      exfalso. apply Hnot. apply in_map_iff. exists (r', rho').
      split; [reflexivity|].
      apply filter_In. split; [exact Hin'|]. apply Z.ltb_lt. exact Hlt. }
    assert (Hne : (r, rho) <> (r', rho')) by (intros E; inversion E; lia).
    destruct (in_two_split _ _ _ Hin Hin' Hne)
      as [(q1 & q2 & q3 & Heq)|(q1 & q2 & q3 & Heq)].
    + pose proof (ranks_order block_row G _ _ _ _ _ _ _ Heq) as [H1 H2].
      unfold block_row in H1, H2. split; [lia|]. intros _.
      exists (map fst q1), (map fst q2), (map fst q3).
      rewrite <- (ranks_fst block_row G) at 1. rewrite Heq.
      rewrite map_app. cbn [map fst]. rewrite map_app. reflexivity.
    + pose proof (ranks_order block_row G _ _ _ _ _ _ _ Heq) as [H1 H2].
      unfold block_row in H1, H2. split; [lia|]. intros E. lia. }
  destruct Hord as [Hle Htie]. split; [exact Hle|].
  intros Hb. destruct (Htie Hb) as (l1 & l2 & l3 & HG).
  split; [exists l1, l2, l3; exact HG|]. intros _.
  assert (HD : subseq (l1 ++ r :: l2 ++ r' :: l3) (deduplicated ln raw)).
  { rewrite <- HG. apply subseq_filter. }
  apply subseq_two_split in HD. destruct HD as (pre & mid & post & HD).
  apply (deduplicated_ties ln raw pre r mid r' post HD).
  - apply group_rows_In in HrG, Hr'. unfold collection_row in HrG, Hr'.
    destruct HrG as [_ ->]. destruct Hr' as [_ ->]. reflexivity.
  - symmetry. exact Hb.
Qed.
End CapTies.

Lemma tied_collection_tokens :
  NoDup (map token_row (map tied_row (seq 1 1881))).
Proof.
  rewrite map_map.
  apply (NoDup_map_inv (fun k : TokenKey => snd (snd k))).
  rewrite map_map. cbn [token_row token_of tied_row trade token_id snd].
  apply Finite.Injective_map_NoDup; [|apply seq_NoDup].
  intros a b. apply Nat2Z.inj.
Qed.

Lemma tied_collection_latest :
  keep_latest_per_token (sanitize ln_sample tied_collection) =
  map tied_row (seq 1 1881).
Proof.
  unfold keep_latest_per_token.
  transitivity (groupby_tail1 token_row (map tied_row (seq 1 1881))).
  - apply f_equal. vm_compute. reflexivity.
  - apply groupby_tail1_NoDup. exact tied_collection_tokens.
Qed.

Lemma tied_collection_deduplicated :
  group_rows collection_row (1, "0xABC"%string)
    (deduplicated ln_sample tied_collection) =
  map tied_row (seq 1 1881).
Proof.
  unfold deduplicated.
  transitivity (group_rows collection_row (1, "0xABC"%string)
                  (sort_by_block (map tied_row (seq 1 1881)))).
  - apply f_equal, f_equal. exact tied_collection_latest.
  - vm_compute. reflexivity.
Qed.

Lemma tied_collection_working_set :
  group_rows collection_row (1, "0xABC"%string)
    (trade_filter ln_sample tied_collection) =
  map tied_row (1 :: seq 4 1878)%nat.
Proof.
  unfold trade_filter.
  rewrite rank_cap_group.
  transitivity (map fst (filter (fun rr : Row * Z => snd rr <? cap_bound)
                           (ranks block_row (map tied_row (seq 1 1881))))).
  - apply f_equal, f_equal, f_equal. exact tied_collection_deduplicated.
  - vm_compute. reflexivity.
Qed.

Lemma tied_row_dropped (i : nat) :
  (2 <= i <= 3)%nat ->
  ~ In (tied_row i)
      (group_rows collection_row (1, "0xABC"%string)
         (trade_filter ln_sample tied_collection)).
Proof.
  intros Hi Hin. rewrite tied_collection_working_set in Hin.
  apply in_map_iff in Hin. destruct Hin as (j & E & Hj).
  apply (f_equal (fun r : Row => token_id r)) in E.
  cbn [tied_row trade token_id] in E. apply Nat2Z.inj in E. subst j.
  destruct Hj as [Hj|Hj]; [lia|]. apply in_seq in Hj. lia.
Qed.

Lemma tied_row_kept :
  In (tied_row 1)
     (group_rows collection_row (1, "0xABC"%string)
        (trade_filter ln_sample tied_collection)).
Proof. rewrite tied_collection_working_set. left. reflexivity. Qed.

Lemma tied_row_deduplicated :
  In (tied_row 3)
     (group_rows collection_row (1, "0xABC"%string)
        (deduplicated ln_sample tied_collection)).
Proof.
  rewrite tied_collection_deduplicated.
  apply (in_map tied_row (seq 1 1881) 3%nat). apply in_seq. lia.
Qed.

Lemma working_set_cap_witness :
  In (tied_row 1)
     (group_rows collection_row (1, "0xABC"%string)
        (trade_filter ln_sample tied_collection)) /\
  In (tied_row 3)
     (group_rows collection_row (1, "0xABC"%string)
        (deduplicated ln_sample tied_collection)) /\
  ~ In (tied_row 3)
      (group_rows collection_row (1, "0xABC"%string)
         (trade_filter ln_sample tied_collection)) /\
  block_number (tied_row 3) = block_number (tied_row 1) /\
  integer_columns tied_collection = true /\
  token_id (tied_row 1) < token_id (tied_row 3).
Proof.
  assert (Hb : block_number (tied_row 3) = block_number (tied_row 1))
    by reflexivity.
  assert (Hd : ~ In (tied_row 3)
                 (group_rows collection_row (1, "0xABC"%string)
                    (trade_filter ln_sample tied_collection)))
    by exact (tied_row_dropped 3 (conj (le_S 2 2 (le_n 2)) (le_n 3))).
  assert (Hint : integer_columns tied_collection = true)
    by (vm_compute; reflexivity).
  split; [exact tied_row_kept|]. split; [exact tied_row_deduplicated|].
  split; [exact Hd|]. split; [exact Hb|]. split; [exact Hint|].
  pose proof (working_set_cap ln_sample tied_collection (1, "0xABC"%string))
    as H.
  cbv zeta in H. destruct H as (_ & _ & H).
  destruct (H (tied_row 1) (tied_row 3) tied_row_kept tied_row_deduplicated
              Hd)
    as [_ Ht].
  destruct (Ht Hb) as [_ Htok]. exact (Htok Hint).
Defined.

(** C4, as the claim states it, fails twice.  The input holds one
    collection of 1881 tokens, each traded once; the first three lines
    are the tokens 3, 1 and 2 in this order, all in block 3, and the
    other tokens follow in later blocks.  The working set keeps 1879
    records, not [2*(BACKTEST+LOOKBACK) = 1880]; and of the three
    records tied on the oldest block it keeps the one of token 1, the
    second line of the input, and drops the first line and the third:
    the tie is decided by the token id, not by the order of the input. *)
Lemma working_set_cap_count_and_ties :
  map (fun t : Trade => (token_id t, block_number t))
    (firstn 3 tied_collection) = [(3, 3); (1, 3); (2, 3)] /\
  length (group_rows collection_row (1, "0xABC"%string)
            (deduplicated ln_sample tied_collection)) = 1881%nat /\
  length (working_set ln_sample tied_collection (1, "0xABC"%string))
    = 1879%nat /\
  length (working_set ln_sample tied_collection (1, "0xABC"%string)) <>
  Nat.min
    (length (group_rows collection_row (1, "0xABC"%string)
               (deduplicated ln_sample tied_collection)))
    (Z.to_nat (2 * (BACKTEST + LOOKBACK))) /\
  In (tied_row 1) (working_set ln_sample tied_collection (1, "0xABC"%string)) /\
  ~ In (tied_row 3)
      (working_set ln_sample tied_collection (1, "0xABC"%string)) /\
  ~ In (tied_row 2)
      (working_set ln_sample tied_collection (1, "0xABC"%string)) /\
  Forall (fun r : Row => 3 < block_number r \/ r = tied_row 1)
    (working_set ln_sample tied_collection (1, "0xABC"%string)).
Proof.
  unfold working_set.
  split; [reflexivity|].
  rewrite tied_collection_deduplicated.
  split; [vm_compute; reflexivity|].
  split; [rewrite tied_collection_working_set; vm_compute; reflexivity|].
  split.
  { rewrite tied_collection_working_set. apply Nat.eqb_neq.
    vm_compute. reflexivity. }
  split; [exact tied_row_kept|].
  split; [apply tied_row_dropped; lia|].
  split; [apply tied_row_dropped; lia|].
  rewrite tied_collection_working_set. constructor.
  - right. reflexivity.
  - rewrite Forall_forall. intros r Hr. left.
    apply in_map_iff in Hr. destruct Hr as (j & <- & Hj).
    apply in_seq in Hj. cbn [tied_row trade block_number]. lia.
Qed.

(** ** The later steps *)

(** X6: lines 52-58 keep of every collection the last
    [min(BACKTEST, n)] of its [n] rows, in table order; a collection
    with fewer than [BACKTEST] rows keeps them all. *)
Theorem backtest_keeps_last_rows (tbl : list LRow) (c : CollectionKey) :
  exists dropped,
    group_rows collection_lrow c tbl =
      dropped ++ group_rows collection_lrow c (backtest_table tbl) /\
    length (group_rows collection_lrow c (backtest_table tbl)) =
      Nat.min (Z.to_nat BACKTEST) (length (group_rows collection_lrow c tbl)).
Proof.
  rewrite backtest_table_group. unfold iloc_last.
  change (BACKTEST <=? 0) with false. cbv iota.
  set (g := group_rows collection_lrow c tbl).
  exists (firstn (length g - Z.to_nat BACKTEST) g). split.
  - symmetry. apply firstn_skipn.
  - rewrite length_skipn. lia.
Qed.


(** ** The run as a whole *)

Lemma iloc_last_length {A} (n : Z) (l : list A) :
  0 < n -> (length (iloc_last n l) <= Z.to_nat n)%nat.
Proof.
  intros Hn. unfold iloc_last.
  destruct (Z.leb_spec n 0) as [|_]; [lia|].
  rewrite length_skipn. lia.
Qed.

Lemma Ok_inj {A} (a b : A) : Ok a = Ok b -> a = b.
Proof. intros E. injection E as E. exact E. Qed.

Lemma lookback_table_row (tbl : list Row) (w : LRow) :
  In w (lookback_table tbl) -> In (row w) tbl.
Proof.
  intros Hw. apply groupby_apply_In in Hw. destruct Hw as (k & Hw).
  apply (in_map row) in Hw. rewrite create_lookback_rows in Hw.
  apply group_rows_In in Hw. tauto.
Qed.

Section WholeRun.
Variables ln exp : Q -> Q.
Variable remove_outliers : list Q -> list Q.

Lemma main_ok_windows (raw : list Trade) (out : list Estimate) :
  main ln exp remove_outliers raw = Ok out ->
  forall w, In w (backtest_rows ln raw) ->
            remove_outliers (log_prices_lookback w) <> [].
Proof.
  intros Hmain w Hw E.
  rewrite (main_raise ln exp remove_outliers raw w Hw E) in Hmain.
  discriminate Hmain.
Qed.

Lemma main_ok_rows (raw : list Trade) (out : list Estimate) :
  main ln exp remove_outliers raw = Ok out -> backtest_rows ln raw <> [].
Proof.
  intros Hmain E.
  rewrite (main_empty ln exp remove_outliers raw E) in Hmain.
  discriminate Hmain.
Qed.

(** A record of a run that ended normally is made from a row of the
    horizon of its collection. *)
Lemma estimate_from_horizon (raw : list Trade) (out : list Estimate)
  (e : Estimate) :
  main ln exp remove_outliers raw = Ok out -> In e out ->
  exists c h w,
    c = collection_of e /\
    horizon ln raw c = h ++ [w] /\
    e = estimate_of ln exp remove_outliers raw c w.
Proof.
  intros Hmain He.
  pose proof (main_ok_windows raw out Hmain) as Hne.
  pose proof (main_ok_rows raw out Hmain) as Hrows.
  destruct (results_group ln exp remove_outliers raw (collection_of e)
              Hrows Hne)
    as (out' & Hmain' & Hout).
  rewrite Hmain in Hmain'. injection Hmain' as <-.
  assert (Hg : In e (group_rows collection_estimate (collection_of e) out)).
  { apply group_rows_In. split; [exact He|reflexivity]. }
  rewrite Hout in Hg.
  destruct (rev (horizon ln raw (collection_of e))) as [|w h] eqn:Er;
    [contradiction|].
  destruct Hg as [Hg|[]].
  exists (collection_of e), (rev h), w.
  split; [reflexivity|]. split; [|symmetry; exact Hg].
  apply (f_equal (@rev LRow)) in Er. rewrite rev_involutive in Er.
  exact Er.
Qed.

(** X8: every record that a run emits is made from a trade of the
    input: the trade is a line of the input table with a positive
    price, a [twap-bid] and a price not below the buffer, the record's
    log-price is the logarithm of that price, and its floor price is
    [exp] of its adjusted log-price. *)
Theorem estimates_come_from_input (raw : list Trade) (out : list Estimate)
  (e : Estimate) :
  main ln exp remove_outliers raw = Ok out -> In e out ->
  In (trade e) raw /\
  (0 < price_eth e)%Q /\
  (exists bid, twap_bid e = Some bid /\
               (bid * TWAP_Buffer_PCT <= price_eth e)%Q) /\
  log_price e = ln (price_eth e) /\
  floor_price_est e = exp (log_price_adj e).
Proof.
  intros Hmain He.
  destruct (estimate_from_horizon raw out e Hmain He)
    as (c & h & w & _ & Hh & ->).
  assert (Hw : In w (horizon ln raw c))
    by (rewrite Hh; apply in_or_app; right; left; reflexivity).
  apply horizon_In in Hw. unfold backtest_rows in Hw.
  apply backtest_table_In, lookback_table_row in Hw.
  change (trade (estimate_of ln exp remove_outliers raw c w))
    with (trade w).
  change (log_price (estimate_of ln exp remove_outliers raw c w))
    with (log_price w).
  apply trade_filter_In, deduplicated_In, sanitize_In in Hw.
  destruct Hw as [Hw Hok].
  assert (Htwap : exists bid, twap_bid w = Some bid /\
                    (bid * TWAP_Buffer_PCT <= price_eth w)%Q).
  { unfold twap_ok in Hok. destruct (twap_bid w) as [bid|]; [|discriminate Hok].
    exists bid. split; [reflexivity|]. apply Qle_bool_iff. exact Hok. }
  apply with_log_price_In in Hw.
  destruct Hw as [Hw Hlog]. apply positive_prices_In in Hw.
  destruct Hw as [Hraw Hpos].
  split; [exact Hraw|]. split; [exact Hpos|]. split; [exact Htwap|].
  split; [exact Hlog|reflexivity].
Qed.

Lemma horizon_of_empty (raw : list Trade) (c : CollectionKey) :
  working_set ln raw c = [] -> horizon ln raw c = [].
Proof.
  intros E. unfold horizon. rewrite E, create_lookback_nil.
  apply iloc_last_nil.
Qed.

(** X9: behind every record that a run emits there are at least one
    and at most [BACKTEST] rows: the record's [one] sum is the number of
    rows of the backtest horizon of its collection, and its
    [price_smaller] sum lies between zero and that number. *)
Theorem estimate_sample_size (raw : list Trade) (out : list Estimate)
  (e : Estimate) :
  main ln exp remove_outliers raw = Ok out -> In e out ->
  stats_key (stats e) = collection_of e /\
  one_sum (stats e) = Z.of_nat (length (horizon ln raw (collection_of e))) /\
  1 <= one_sum (stats e) <= BACKTEST /\
  0 <= price_smaller_sum (stats e) <= one_sum (stats e).
Proof.
  intros Hmain He.
  destruct (estimate_from_horizon raw out e Hmain He)
    as (c & h & w & Hc & Hh & He').
  assert (Hs : stats e = collection_stats ln remove_outliers raw c)
    by (rewrite He'; reflexivity).
  rewrite Hs, <- Hc. unfold collection_stats, stats_of.
  cbn [stats_key one_sum price_smaller_sum fst snd].
  rewrite count_true, length_map.
  split; [reflexivity|]. split; [reflexivity|].
  pose proof (iloc_last_length BACKTEST
                (create_lookback LOOKBACK (working_set ln raw c)) eq_refl)
    as Hlen.
  fold (horizon ln raw c) in Hlen.
  pose proof (count_nonneg price_smaller
                (map (nominal_of remove_outliers) (horizon ln raw c))) as H0.
  pose proof (count_le_length price_smaller
                (map (nominal_of remove_outliers) (horizon ln raw c))) as H1.
  rewrite length_map in H1.
  assert (Hpos : (0 < length (horizon ln raw c))%nat)
    by (rewrite Hh, last_length; lia).
  assert (HB : Z.of_nat (Z.to_nat BACKTEST) = BACKTEST) by reflexivity.
  lia.
Qed.

Lemma backtest_rows_sorted (raw : list Trade) :
  StronglySorted
    (fun a b : LRow => kle (collection_lrow a) (collection_lrow b))
    (backtest_rows ln raw).
Proof.
  unfold backtest_rows, backtest_table. apply groupby_apply_sorted.
  intros k. rewrite Forall_forall. intros w Hw.
  apply (subseq_In _ _ _ (iloc_last_subseq _ _)) in Hw.
  apply group_rows_In in Hw. tauto.
Qed.

(** X10: the records of a run are in strictly ascending order of the
    collection key, chain first and contract address second, so no
    collection has two records; and a collection has a record exactly
    when it has a row in the working set. *)
Theorem estimates_in_collection_order (raw : list Trade)
  (out : list Estimate) :
  main ln exp remove_outliers raw = Ok out ->
  StronglySorted
    (fun a b : Estimate => cmp (collection_of a) (collection_of b) = Lt)
    out /\
  forall c, (exists e, In e out /\ collection_of e = c) <->
            working_set ln raw c <> [].
Proof.
  intros Hmain.
  pose proof (main_ok_windows raw out Hmain) as Hne.
  pose proof (main_ok_rows raw out Hmain) as Hrows. split.
  - pose proof (main_ok ln exp remove_outliers raw Hrows Hne) as Hok.
    rewrite Hmain in Hok. apply Ok_inj in Hok. rewrite Hok.
    unfold results.
    apply (StronglySorted_map
             (fun a b : ARow =>
                cmp (collection_arow a) (collection_arow b) = Lt)).
    { intros a b Hab. exact Hab. }
    apply sorted_NoDup_strict; [|apply groupby_tail1_keys_NoDup].
    eapply StronglySorted_subseq; [apply groupby_tail1_subseq|].
    rewrite map_map.
    apply (StronglySorted_map
             (fun a b : LRow =>
                kle (collection_lrow a) (collection_lrow b))).
    { intros a b Hab. exact Hab. }
    apply backtest_rows_sorted.
  - intros c. split.
    + intros (e & He & <-).
      destruct (estimate_from_horizon raw out e Hmain He)
        as (c & h & w & Hc & Hh & _).
      subst c. intros Hnil. apply horizon_of_empty in Hnil.
      rewrite Hnil in Hh. destruct h; discriminate Hh.
    + intros Hws.
      destruct (results_group ln exp remove_outliers raw c Hrows Hne)
        as (out' & Hmain' & Hout).
      rewrite Hmain in Hmain'. injection Hmain' as <-.
      pose proof (horizon_nonempty ln raw c Hws) as Hh.
      destruct (rev (horizon ln raw c)) as [|w h] eqn:Er.
      * apply (f_equal (@rev LRow)) in Er. rewrite rev_involutive in Er.
        contradiction.
      * assert (Hin : In (estimate_of ln exp remove_outliers raw c w)
                        (group_rows collection_estimate c out))
          by (rewrite Hout; left; reflexivity).
        apply group_rows_In in Hin.
        exists (estimate_of ln exp remove_outliers raw c w). exact Hin.
Qed.

Lemma filter_idem {A} (P : A -> bool) (l : list A) :
  filter P (filter P l) = filter P l.
Proof.
  rewrite filter_filter. apply filter_ext_on. intros x _.
  destruct (P x); reflexivity.
Qed.

Lemma sanitize_group (c : CollectionKey) (raw : list Trade) :
  group_rows collection_row c (sanitize ln raw) =
  sanitize ln (group_rows collection_of c raw).
Proof.
  unfold sanitize, twap_filter, with_log_price, positive_prices, group_rows.
  rewrite filter_comm, filter_map_comm. cbn [collection_row trade].
  rewrite (filter_comm _ (fun t : Trade => Qlt_bool 0 (price_eth t))).
  reflexivity.
Qed.

Lemma keep_latest_per_token_group_rows (c : CollectionKey) (tbl : list Row) :
  group_rows collection_row c (keep_latest_per_token tbl) =
  keep_latest_per_token (group_rows collection_row c tbl).
Proof.
  unfold keep_latest_per_token, group_rows.
  rewrite filter_groupby_tail1, filter_sort_values; [reflexivity|].
  intros a b E. unfold token_row, token_of in E.
  injection E as E1 E2 _.
  unfold collection_row, collection_of. rewrite E1, E2. reflexivity.
Qed.

(** The rows of a collection in the working set are made from the
    sanitized rows of that collection alone. *)
Lemma working_set_from_group (c : CollectionKey) (raw : list Trade) :
  working_set ln raw c =
  map fst
    (filter (fun rr : Row * Z => snd rr <? cap_bound)
       (ranks block_row
          (sort_by_block
             (keep_latest_per_token
                (group_rows collection_row c (sanitize ln raw)))))).
Proof.
  unfold working_set, trade_filter. rewrite rank_cap_group.
  unfold deduplicated.
  assert (E : group_rows collection_row c
                (sort_by_block (keep_latest_per_token (sanitize ln raw))) =
              sort_by_block
                (group_rows collection_row c
                   (keep_latest_per_token (sanitize ln raw)))).
  { unfold sort_by_block, group_rows. apply filter_sort_values. }
  rewrite E, keep_latest_per_token_group_rows. reflexivity.
Qed.

Lemma working_set_restrict (c : CollectionKey) (raw : list Trade) :
  working_set ln (group_rows collection_of c raw) c = working_set ln raw c.
Proof.
  rewrite !working_set_from_group, <- (sanitize_group c raw).
  unfold group_rows. rewrite filter_idem. reflexivity.
Qed.

Lemma trade_filter_raw (raw : list Trade) (r : Row) :
  In r (trade_filter ln raw) -> In (trade r) raw.
Proof.
  intros Hr. apply trade_filter_In, deduplicated_In, sanitize_In in Hr.
  destruct Hr as [Hr _]. apply with_log_price_In in Hr.
  destruct Hr as [Hr _]. apply positive_prices_In in Hr. tauto.
Qed.

Lemma working_set_restrict_other (c c' : CollectionKey) (raw : list Trade) :
  working_set ln (group_rows collection_of c raw) c' <> [] -> c' = c.
Proof.
  intros Hne.
  destruct (working_set ln (group_rows collection_of c raw) c')
    as [|r g] eqn:E; [congruence|].
  assert (Hr : In r (working_set ln (group_rows collection_of c raw) c'))
    by (rewrite E; left; reflexivity).
  apply working_set_In in Hr. destruct Hr as [Hr Hc'].
  apply trade_filter_raw, group_rows_In in Hr. destruct Hr as [_ Hc].
  congruence.
Qed.

Lemma horizon_restrict (c : CollectionKey) (raw : list Trade) :
  horizon ln (group_rows collection_of c raw) c = horizon ln raw c.
Proof. unfold horizon. rewrite working_set_restrict. reflexivity. Qed.

Lemma backtest_rows_restrict (c : CollectionKey) (raw : list Trade)
  (w : LRow) :
  In w (backtest_rows ln (group_rows collection_of c raw)) ->
  In w (backtest_rows ln raw).
Proof.
  intros Hw.
  assert (Hg : In w (group_rows collection_lrow (collection_lrow w)
                       (backtest_rows ln (group_rows collection_of c raw))))
    by (apply group_rows_In; split; [exact Hw|reflexivity]).
  rewrite horizon_group in Hg.
  assert (Hc : collection_lrow w = c).
  { apply (working_set_restrict_other c (collection_lrow w) raw).
    intros Hnil. apply horizon_of_empty in Hnil. rewrite Hnil in Hg.
    exact Hg. }
  rewrite Hc, horizon_restrict in Hg.
  exact (horizon_In ln raw c w Hg).
Qed.

(** X11: on a table whose integer columns are read as integers,
    collections are estimated independently: the record that a run emits
    for a collection is the whole result of the run on that collection's
    trades alone; the trades of other collections change nothing in it.
    The condition on the columns keeps the order of the token ids the
    same in both runs: a token id beyond 64 bits in another collection
    would turn the column into text for every row of the full table. *)
Theorem estimate_depends_on_own_collection (raw : list Trade)
  (out : list Estimate) (c : CollectionKey) :
  integer_columns raw = true ->
  main ln exp remove_outliers raw = Ok out ->
  working_set ln raw c <> [] ->
  main ln exp remove_outliers (group_rows collection_of c raw) =
  Ok (group_rows collection_estimate c out).
Proof.
  intros _ Hmain Hws.
  pose proof (main_ok_windows raw out Hmain) as Hne.
  pose proof (main_ok_rows raw out Hmain) as Hrows.
  assert (Hrows' : backtest_rows ln (group_rows collection_of c raw) <> []).
  { apply (backtest_rows_nonempty ln _ c).
    rewrite working_set_restrict. exact Hws. }
  assert (Hne' : forall w,
            In w (backtest_rows ln (group_rows collection_of c raw)) ->
            remove_outliers (log_prices_lookback w) <> []).
  { intros w Hw. apply Hne. exact (backtest_rows_restrict c raw w Hw). }
  destruct (results_group ln exp remove_outliers raw c Hrows Hne)
    as (out0 & Hmain0 & Hout).
  rewrite Hmain in Hmain0. apply Ok_inj in Hmain0. subst out0.
  destruct (results_group ln exp remove_outliers
              (group_rows collection_of c raw) c Hrows' Hne')
    as (out' & Hmain' & Hout').
  rewrite Hmain'. f_equal.
  assert (Hsame : group_rows collection_estimate c out' =
                  group_rows collection_estimate c out).
  { rewrite Hout, Hout', horizon_restrict.
    destruct (rev (horizon ln raw c)) as [|w h]; [reflexivity|].
    unfold estimate_of, collection_stats. rewrite horizon_restrict.
    reflexivity. }
  rewrite <- Hsame. symmetry. apply group_rows_same.
  rewrite Forall_forall. intros e He.
  destruct (estimate_from_horizon _ out' e Hmain' He)
    as (c' & h & w & Hc' & Hh & _).
  unfold collection_estimate. rewrite <- Hc'.
  apply (working_set_restrict_other c c' raw).
  intros Hnil. apply horizon_of_empty in Hnil. rewrite Hnil in Hh.
  destruct h; discriminate Hh.
Qed.
End WholeRun.

(** X12: the deduplication works token by token, a token being a chain,
    a contract address and a token id: which row of a token is kept
    depends on the rows of that token alone, so the same token id on
    another chain or contract has no part in it. *)
Theorem keep_latest_per_token_by_token (tbl : list Row) (k : TokenKey) :
  group_rows token_row k (keep_latest_per_token tbl) =
  keep_latest_per_token (group_rows token_row k tbl).
Proof.
  unfold keep_latest_per_token, group_rows.
  rewrite filter_groupby_tail1, filter_sort_values; [reflexivity|].
  intros a b E. rewrite E. reflexivity.
Qed.

(** ** The further properties on the sample data *)

Lemma rank_cap_small_collections_witness :
  rank_cap (sanitize ln_sample sample_trades) =
  sanitize ln_sample sample_trades.
Proof.
  apply rank_cap_small_collections. intros c.
  pose proof (subseq_length _ _
                (subseq_filter (fun r : Row => keq (collection_row r) c)
                   (sanitize ln_sample sample_trades))) as Hlen.
  assert (L : length (sanitize ln_sample sample_trades) = 4%nat)
    by (vm_compute; reflexivity).
  rewrite L in Hlen. unfold group_rows, BACKTEST, LOOKBACK. lia.
Defined.

Lemma trade_filter_in_order_witness :
  kle (collection_of sample_older) (collection_of sample_survivor) /\
  (collection_of sample_older = collection_of sample_survivor ->
   block_number sample_older <= block_number sample_survivor) /\
  token_of sample_older <> token_of sample_survivor.
Proof.
  apply (trade_filter_in_order ln_sample sample_trades
           [] sample_older [] sample_survivor [sample_other]).
  vm_compute. reflexivity.
Defined.

Lemma estimates_come_from_input_witness :
  exists out e,
    main ln_sample exp_sample no_trim sample_trades = Ok out /\
    In e out /\ In (trade e) sample_trades.
Proof.
  destruct (main ln_sample exp_sample no_trim sample_trades)
    as [[|e out]|err] eqn:Hmain.
  - vm_compute in Hmain. discriminate Hmain.
  - exists (e :: out), e. split; [reflexivity|].
    split; [left; reflexivity|].
    exact (proj1 (estimates_come_from_input ln_sample exp_sample no_trim
                    sample_trades (e :: out) e Hmain
                    (or_introl eq_refl))).
  - vm_compute in Hmain. discriminate Hmain.
Defined.

Lemma estimate_sample_size_witness :
  exists out e,
    main ln_sample exp_sample no_trim sample_trades = Ok out /\
    In e out /\ 1 <= one_sum (stats e) <= BACKTEST.
Proof.
  destruct (main ln_sample exp_sample no_trim sample_trades)
    as [[|e out]|err] eqn:Hmain.
  - vm_compute in Hmain. discriminate Hmain.
  - exists (e :: out), e. split; [reflexivity|].
    split; [left; reflexivity|].
    exact (proj1 (proj2 (proj2
             (estimate_sample_size ln_sample exp_sample no_trim
                sample_trades (e :: out) e Hmain (or_introl eq_refl))))).
  - vm_compute in Hmain. discriminate Hmain.
Defined.

Lemma estimates_in_collection_order_witness :
  exists out,
    main ln_sample exp_sample no_trim sample_trades = Ok out /\
    StronglySorted
      (fun a b : Estimate => cmp (collection_of a) (collection_of b) = Lt)
      out.
Proof.
  destruct (main ln_sample exp_sample no_trim sample_trades)
    as [out|err] eqn:Hmain.
  - exists out. split; [reflexivity|].
    exact (proj1 (estimates_in_collection_order ln_sample exp_sample
                    no_trim sample_trades out Hmain)).
  - vm_compute in Hmain. discriminate Hmain.
Defined.

Lemma estimate_depends_on_own_collection_witness :
  exists out,
    main ln_sample exp_sample no_trim sample_trades = Ok out /\
    main ln_sample exp_sample no_trim
      (group_rows collection_of (1, "0xA"%string) sample_trades) =
    Ok (group_rows collection_estimate (1, "0xA"%string) out).
Proof.
  assert (Hint : integer_columns sample_trades = true)
    by (vm_compute; reflexivity).
  destruct (main ln_sample exp_sample no_trim sample_trades)
    as [out|err] eqn:Hmain.
  - exists out. split; [reflexivity|].
    apply (estimate_depends_on_own_collection ln_sample exp_sample no_trim
             sample_trades out (1, "0xA"%string) Hint Hmain).
    vm_compute. discriminate.
  - vm_compute in Hmain. discriminate Hmain.
Defined.
